(** * The batching subsystem of gfx

    A shallow embedding of the mesh merge, the object merge ([Batch],
    [mergeObjects]) and the incremental [Batcher] ([Add], [Remove], [Update],
    [DrawTo]), with the properties of the specification stated over it.

    Pointers are identifiers into finite maps: client objects, batch structs
    and the backing arrays of [[]*Texture] slices each live in a store of
    their own, so that aliasing and pointer identity are those of the Go
    program.  A panic is an outcome of its own; the state reached when the
    panic is raised stays observable, as it does in Go after the deferred
    unlock.  The locks are left out: every operation runs alone under the
    batcher's mutex. *)

From Stdlib Require Import ZArith String.
From stdpp Require Import base option list gmap strings.

Open Scope Z_scope.

(** ** Values *)

(** Vertex data is only moved, never computed on; coordinates are kept as
    integers. *)
Definition Vec3 : Type := Z * Z * Z.
Definition Color : Type := Z * Z * Z * Z.
Definition TexCoord : Type := Z * Z.

(** An index of the index array, a [uint32]; arithmetic on it wraps. *)
Definition uint32_wrap (z : Z) : Z := z mod 2 ^ 32.

Definition Rect3 : Type := Vec3 * Vec3.
Definition Rect3Zero : Rect3 := ((0, 0, 0), (0, 0, 0)).

(** Modelled from the spec: the render state ([State]) is a plain value
    compared with [==]; its declaration is not part of the sources.  The one
    field the sources name is [Dithering]; the others are gathered in one
    number. *)
Record State : Type := mkState {
  Dithering : bool;
  stateRest : N
}.

#[global] Instance State_eq_dec : EqDecision State.
Proof. solve_decision. Defined.

(** [*Shader] and [*Texture]: a pointer or nil. *)
Definition ShaderRef : Type := option positive.
Definition TextureRef : Type := option positive.

(** ** Outcomes *)

(** What a Go call does: return a value or panic with a message. *)
Inductive outcome (A : Type) : Type :=
  | Ret (a : A)
  | Panic (msg : string).
Arguments Ret {A} a.
Arguments Panic {A} msg.

Definition nilDeref : string := "invalid memory address or nil pointer dereference".
Definition sliceBounds : string := "slice bounds out of range".
Definition indexRange : string := "index out of range".

(** ** Meshes *)

(** Modelled from the spec: the mesh ([Mesh]) of section 3, whose
    declaration is not part of the sources: vertex positions, the optional
    per-vertex channels, the custom attributes by name, an optional index
    array and the flags the merge resets. *)
Record Mesh : Type := mkMesh {
  KeepDataOnLoad : bool;
  Dynamic : bool;
  AABB : Rect3;
  Indices : list Z;
  Vertices : list Vec3;
  Colors : list Color;
  Normals : list Vec3;
  TexCoords : list TexCoord;
  Attribs : gmap string (list Z)
}.

Definition nonEmpty {A} (l : list A) : bool :=
  match l with [] => false | _ => true end.

(** A mesh with positions and indices only, as the tests build them. *)
Definition meshWith (vs : list Vec3) (ixs : list Z) : Mesh :=
  {| KeepDataOnLoad := false; Dynamic := false; AABB := Rect3Zero;
     Indices := ixs; Vertices := vs; Colors := []; Normals := [];
     TexCoords := []; Attribs := ∅ |}.

(** ** Mesh signatures *)

Module MeshType.

(** Modelled from the spec: the mesh signature ([meshType]) of section 3,
    one presence flag per channel, the names of the custom attributes in
    use and the indexed flag; [newMeshType] and [equals] are not part of the
    sources. *)
Record meshType : Type := mkMeshType {
  hasIndices : bool;
  hasVertices : bool;
  hasColors : bool;
  hasNormals : bool;
  hasTexCoords : bool;
  attribNames : gset string
}.

(** Modelled from the spec: [newMeshType], "which attribute arrays are
    non-empty" and "indexed or not". *)
Definition newMeshType (m : Mesh) : meshType :=
  {| hasIndices := nonEmpty (Indices m);
     hasVertices := nonEmpty (Vertices m);
     hasColors := nonEmpty (Colors m);
     hasNormals := nonEmpty (Normals m);
     hasTexCoords := nonEmpty (TexCoords m);
     attribNames := dom (filter (λ a, nonEmpty (snd a) = true) (Attribs m)) |}.

(** Modelled from the spec: the comparison of the attribute channels that
    [equals] and [canAppend] share; [None] is Go's nil error, [Some ch]
    names the first channel that differs. *)
Definition sameChannels (a b : meshType) : option string :=
  if negb (eqb (hasVertices a) (hasVertices b)) then Some "Vertices"%string
  else if negb (eqb (hasColors a) (hasColors b)) then Some "Colors"%string
  else if negb (eqb (hasNormals a) (hasNormals b)) then Some "Normals"%string
  else if negb (eqb (hasTexCoords a) (hasTexCoords b)) then Some "TexCoords"%string
  else if negb (bool_decide (attribNames a = attribNames b)) then Some "Attribs"%string
  else None.

(** Modelled from the spec: [equals], "every optional-attribute presence
    flag matches and both are indexed or both are non-indexed". *)
Definition equals (a b : meshType) : option string :=
  if negb (eqb (hasIndices a) (hasIndices b)) then Some "Indices"%string
  else sameChannels a b.

End MeshType.

(** ** Mesh merge *)

(** Modelled from the spec: [Mesh.canAppend] of section 4.2, which is not
    part of the sources: the attribute presence sets must agree, the
    presence of indices need not. *)
Definition canAppend (a b : Mesh) : option string :=
  MeshType.sameChannels (MeshType.newMeshType a) (MeshType.newMeshType b).

(** The indices [0 .. n-1] that stand for a mesh without an index array. *)
Definition sequentialIndices (n : nat) : list Z := Z.of_nat <$> seq 0 n.

Definition offsetIndices (off : nat) (l : list Z) : list Z :=
  (λ i, uint32_wrap (Z.of_nat off + i)) <$> l.

(** The elements of a channel in the order of an index array. *)
Definition pick {A} (ixs : list Z) (l : list A) : list A :=
  omap (λ i, l !! Z.to_nat i) ixs.

Definition inRange (ixs : list Z) (n : nat) : bool :=
  forallb (λ i, (0 <=? i) && (i <? Z.of_nat n)) ixs.

(** What a channel of [a] becomes: a channel that is present gets the
    elements of [b] appended. *)
Definition appendChannel {A} (a b : list A) : list A :=
  if nonEmpty a then a ++ b else a.

(** What [a] receives of a channel of [b]: the channel, or, for a
    non-indexed [a] and an indexed [b], its elements in the order of the
    indices of [b]. *)
Definition received {A} (deindex : bool) (ixs : list Z) (l : list A) : list A :=
  if deindex then pick ixs l else l.

(** Modelled from the spec: [Mesh.append] of section 4.2, which is not part
    of the sources, and from its test [TestMeshAppend].  Every present
    channel of [a] gets the channel of [b] appended; an indexed [a] gets
    the indices of [b], or the sequential indices of a [b] without any,
    offset by the vertex count [a] had before; a non-indexed [a] stays
    non-indexed, and receives the vertices of an indexed [b] in the order
    of the indices of [b], as the test case "append(Mesh, IndexedMesh)" has
    it; the bounding volume is reset. *)
Definition append (a b : Mesh) : outcome Mesh :=
  let n := length (Vertices a) in
  let deindex := negb (nonEmpty (Indices a)) && nonEmpty (Indices b) in
  if deindex && negb (inRange (Indices b) (length (Vertices b)))
  then Panic indexRange
  else
    Ret {| KeepDataOnLoad := KeepDataOnLoad a;
           Dynamic := Dynamic a;
           AABB := Rect3Zero;
           Indices :=
             if nonEmpty (Indices a) then
               Indices a ++ offsetIndices n
                 (if nonEmpty (Indices b) then Indices b
                  else sequentialIndices (length (Vertices b)))
             else Indices a;
           Vertices :=
             appendChannel (Vertices a) (received deindex (Indices b) (Vertices b));
           Colors :=
             appendChannel (Colors a) (received deindex (Indices b) (Colors b));
           Normals :=
             appendChannel (Normals a) (received deindex (Indices b) (Normals b));
           TexCoords :=
             appendChannel (TexCoords a) (received deindex (Indices b) (TexCoords b));
           Attribs :=
             map_imap (λ name data,
                         Some (appendChannel data
                                 (received deindex (Indices b)
                                    (default [] (Attribs b !! name)))))
               (Attribs a) |}.

(** The two meshes of the case "append(IndexedMesh, Mesh)" of
    [meshAppendTests]. *)
Definition testIndexedA : Mesh :=
  meshWith [(0, 1, 2); (3, 4, 5); (6, 7, 8)] [2; 1; 0].
Definition testPlainB : Mesh :=
  meshWith [(8, 7, 6); (5, 4, 3); (2, 1, 0)] [].

(** ** Stores *)

Abbreviation ObjRef := positive (only parsing).
Abbreviation BatchRef := positive (only parsing).
Abbreviation ArrRef := positive (only parsing).

(** A client object, as far as batching reads it.  [Textures] is a slice: a
    reference to its backing array in the store of texture arrays, which it
    spans.  [Meshes] is the slice of [*Mesh]: an element is [None] for a nil
    pointer; the mesh a pointer leads to is only read, and is kept by
    value. *)
Record Object : Type := mkObject {
  ObjectState : State;
  Shader : ShaderRef;
  Textures : ArrRef;
  Meshes : list (option Mesh)
}.

(** The object a merge returns.  It is owned by its batch alone, nothing
    else writes to it, and it is kept by value. *)
Record MergedObject : Type := mkMerged {
  mergedState : State;
  mergedShader : ShaderRef;
  mergedTextures : list TextureRef;
  mergedMeshes : list Mesh
}.

(** The struct [batch]; [batchObject] is the embedded [*Object], [None] for
    nil. *)
Record batch : Type := mkBatch {
  batchObject : option MergedObject;
  stateType : State;
  shaderType : ShaderRef;
  textureType : ArrRef;
  meshType : option MeshType.meshType;
  objects : list ObjRef
}.

(** The struct [Batcher], without its mutex. *)
Record Batcher : Type := mkBatcher {
  batches : list BatchRef;
  batchByObj : gmap positive positive
}.

(** One call [c.Draw(r, obj, cam)] on the canvas: of a client object, by its
    pointer, or of a merged object. *)
Inductive DrawCall : Type :=
  | DrawObject (obj : ObjRef)
  | DrawMerged (o : MergedObject).

(** The memory the batcher works in, and the calls the canvas has seen. *)
Record World : Type := mkWorld {
  objs : gmap positive Object;
  texArrays : gmap positive (list TextureRef);
  batchHeap : gmap positive batch;
  batcher : Batcher;
  canvas : list DrawCall
}.

Definition setBatchHeap (h : gmap positive batch) (w : World) : World :=
  mkWorld (objs w) (texArrays w) h (batcher w) (canvas w).
Definition setTexArrays (t : gmap positive (list TextureRef)) (w : World) : World :=
  mkWorld (objs w) t (batchHeap w) (batcher w) (canvas w).
Definition setBatcher (b : Batcher) (w : World) : World :=
  mkWorld (objs w) (texArrays w) (batchHeap w) b (canvas w).
Definition setCanvas (c : list DrawCall) (w : World) : World :=
  mkWorld (objs w) (texArrays w) (batchHeap w) (batcher w) c.

Definition setBatches (l : list BatchRef) (b : Batcher) : Batcher :=
  mkBatcher l (batchByObj b).
Definition setBatchByObj (m : gmap positive positive) (b : Batcher) : Batcher :=
  mkBatcher (batches b) m.

Definition setBatchObject (o : option MergedObject) (bt : batch) : batch :=
  mkBatch o (stateType bt) (shaderType bt) (textureType bt) (meshType bt) (objects bt).
Definition setObjects (l : list ObjRef) (bt : batch) : batch :=
  mkBatch (batchObject bt) (stateType bt) (shaderType bt) (textureType bt)
    (meshType bt) l.

(** The elements of a texture slice. *)
Definition readSlice (w : World) (a : ArrRef) : list TextureRef :=
  default [] (texArrays w !! a).

(** ** Calls that can panic and that change the world *)

Definition M (A : Type) : Type := World → outcome A * World.

Definition ret {A} (a : A) : M A := λ w, (Ret a, w).
Definition bind {A B} (m : M A) (k : A → M B) : M B :=
  λ w, match m w with
       | (Ret a, w') => k a w'
       | (Panic msg, w') => (Panic msg, w')
       end.
Definition get : M World := λ w, (Ret w, w).
Definition modify (f : World → World) : M unit := λ w, (Ret tt, f w).
Definition lift {A} (f : World → outcome A) : M A := λ w, (f w, w).

Notation "x <~ m ; k" := (bind m (λ x, k))
  (at level 20, m at level 100, k at level 200, only parsing).

(** [for _, x := range l { body(x) }] *)
Fixpoint forEach {A} (l : list A) (body : A → M unit) : M unit :=
  match l with
  | [] => ret tt
  | x :: l' => u <~ body x; forEach l' body
  end.

(** Reading through a [*batch]. *)
Definition derefBatch (bt : BatchRef) : M batch :=
  λ w, match batchHeap w !! bt with
       | Some b => (Ret b, w)
       | None => (Panic nilDeref, w)
       end.

(** Reading through a [*Object]. *)
Definition derefObject (w : World) (obj : ObjRef) : outcome Object :=
  match objs w !! obj with
  | Some o => Ret o
  | None => Panic nilDeref
  end.

(** [bt.Object = nil] *)
Definition clearBatch (bt : BatchRef) : M unit :=
  b <~ derefBatch bt;
  modify (λ w, setBatchHeap (<[bt := setBatchObject None b]> (batchHeap w)) w).

(** ** Removal from a slice inside a range loop

    [for i, e := range s { if e != x { continue }; s = append(s[:i], s[i+1:]...) }]

    The range expression is evaluated once: the loop runs over the length
    the slice had at its start and reads each element from the backing
    array, which the [append] overwrites in place.  [arr] is the backing
    array, [len] the current length of the slice; [s[i+1:]] panics once
    [i+1] exceeds it.  The result is the slice the variable holds when the
    loop ends or panics. *)
Fixpoint rangeDelete (x : positive) (todo i : nat) (arr : list positive)
    (len : nat) : outcome unit * list positive :=
  match todo with
  | O => (Ret tt, take len arr)
  | S todo' =>
    match arr !! i with
    | None => (Panic indexRange, take len arr)
    | Some e =>
      if decide (x = e) then
        if decide (i < len)%nat then
          rangeDelete x todo' (S i)
            (take i arr ++ take (len - S i) (drop (S i) arr) ++ drop (len - 1) arr)
            (len - 1)
        else (Panic sliceBounds, take len arr)
      else rangeDelete x todo' (S i) arr len
    end
  end.

Definition deleteInRange (x : positive) (s : list positive) : outcome unit * list positive :=
  rangeDelete x (length s) 0 s (length s).

(** ** The object merge *)

(** [mesh.Copy()] followed by the three resets of [mergeObjects].
    Modelled from the spec: [Mesh.Copy], which is not part of the sources,
    is a deep copy; of a value, that is the value. *)
Definition copyForBatch (mesh : Mesh) : Mesh :=
  {| KeepDataOnLoad := false; Dynamic := false; AABB := Rect3Zero;
     Indices := Indices mesh; Vertices := Vertices mesh; Colors := Colors mesh;
     Normals := Normals mesh; TexCoords := TexCoords mesh;
     Attribs := Attribs mesh |}.

(** The inner loop of [mergeObjects] over the meshes of object number
    [objN], from mesh number [meshN] on.  [batchMesh] is the local variable
    of that name, [None] while it is nil.  Modelled from the spec:
    [Copy], [canAppend] and [append], which are not part of the sources,
    read the channels of their receiver and of their argument; on a nil
    receiver or a nil argument that is a nil dereference.  (The locking
    loop of [mergeObjects] has dereferenced every mesh before, so that no
    nil mesh gets here.) *)
Fixpoint mergeMeshes (checkMt : bool) (objN meshN : nat) (ms : list (option Mesh))
    (batchMesh : option Mesh) : outcome (option Mesh) :=
  match ms with
  | [] => Ret batchMesh
  | None :: _ => Panic nilDeref
  | Some mesh :: ms' =>
    if Nat.eqb objN 0 && Nat.eqb meshN 0 then
      mergeMeshes checkMt objN (S meshN) ms' (Some (copyForBatch mesh))
    else
      match batchMesh with
      | None => Panic nilDeref
      | Some bm =>
        match (if checkMt then canAppend bm mesh else None) with
        | Some err => Panic ("Batch: " ++ err)
        | None =>
          match append bm mesh with
          | Panic msg => Panic msg
          | Ret bm' => mergeMeshes checkMt objN (S meshN) ms' (Some bm')
          end
        end
      end
  end.

(** The outer loop of [mergeObjects]. *)
Fixpoint mergeEach (checkMt : bool) (objN : nat) (os : list Object)
    (batchMesh : option Mesh) : outcome (option Mesh) :=
  match os with
  | [] => Ret batchMesh
  | o :: os' =>
    match mergeMeshes checkMt objN 0 (Meshes o) batchMesh with
    | Panic msg => Panic msg
    | Ret batchMesh' => mergeEach checkMt (S objN) os' batchMesh'
    end
  end.

(** [mesh.RLock()] for each mesh of an object: on a nil mesh that is a nil
    dereference. *)
Fixpoint lockMeshes (ms : list (option Mesh)) : outcome unit :=
  match ms with
  | [] => Ret tt
  | None :: _ => Panic nilDeref
  | Some _ :: ms' => lockMeshes ms'
  end.

(** The locking loop of [mergeObjects]: every object is dereferenced, and
    so is each of its meshes. *)
Fixpoint derefAll (w : World) (l : list ObjRef) : outcome (list Object) :=
  match l with
  | [] => Ret []
  | obj :: l' =>
    match derefObject w obj with
    | Panic msg => Panic msg
    | Ret o =>
      match lockMeshes (Meshes o) with
      | Panic msg => Panic msg
      | Ret _ =>
        match derefAll w l' with
        | Panic msg => Panic msg
        | Ret os => Ret (o :: os)
        end
      end
    end
  end.

(** [mergeObjects]: the state, the shader and a copy of the textures of the
    first object, and the one mesh that the loops leave in [batchMesh]. *)
Definition mergeObjects (checkMt : bool) (w : World) (l : list ObjRef)
    : outcome MergedObject :=
  match l with
  | [] => Panic "Batch: no arguments"
  | obj0 :: _ =>
    match derefAll w l with
    | Panic msg => Panic msg
    | Ret os =>
      match derefObject w obj0 with
      | Panic msg => Panic msg
      | Ret o0 =>
        match mergeEach checkMt 0 os None with
        | Panic msg => Panic msg
        | Ret batchMesh =>
          Ret {| mergedState := ObjectState o0;
                 mergedShader := Shader o0;
                 mergedTextures := readSlice w (Textures o0);
                 mergedMeshes := match batchMesh with
                                 | Some m => [m]
                                 | None => []
                                 end |}
        end
      end
    end
  end.

Definition Batch (w : World) (l : list ObjRef) : outcome MergedObject :=
  mergeObjects true w l.

(** ** The batcher *)

(** The loop of [matches] over the texture type of the batch. *)
Fixpoint sameTextures (i : nat) (bts ots : list TextureRef) : outcome bool :=
  match bts with
  | [] => Ret true
  | tex :: bts' =>
    match ots !! i with
    | None => Panic indexRange
    | Some t => if decide (t = tex) then sameTextures (S i) bts' ots else Ret false
    end
  end.

(** The loop of [matches] over the meshes of the object: [m.RLock()]
    dereferences the mesh, and [*b.meshType] the mesh type of the batch, at
    every mesh. *)
Fixpoint sameMeshType (mt : option MeshType.meshType) (ms : list (option Mesh))
    : outcome bool :=
  match ms with
  | [] => Ret true
  | None :: _ => Panic nilDeref
  | Some m :: ms' =>
    match mt with
    | None => Panic nilDeref
    | Some t =>
      match MeshType.equals (MeshType.newMeshType m) t with
      | Some _ => Ret false
      | None => sameMeshType mt ms'
      end
    end
  end.

(** [matches]: the shader, the length of the texture lists, the textures one
    by one, the state, and then the mesh type for each mesh of the
    object. *)
Definition matches (w : World) (bt : BatchRef) (obj : ObjRef) : outcome bool :=
  match derefObject w obj with
  | Panic msg => Panic msg
  | Ret o =>
    match batchHeap w !! bt with
    | None => Panic nilDeref
    | Some b =>
      if negb (bool_decide (Shader o = shaderType b)) then Ret false
      else
        let ots := readSlice w (Textures o) in
        let bts := readSlice w (textureType b) in
        if negb (Nat.eqb (length ots) (length bts)) then Ret false
        else
          match sameTextures 0 bts ots with
          | Panic msg => Panic msg
          | Ret false => Ret false
          | Ret true =>
            if negb (bool_decide (ObjectState o = stateType b)) then Ret false
            else sameMeshType (meshType b) (Meshes o)
          end
    end
  end.

(** The loop of [findBatch] over [b.batches]. *)
Fixpoint findBatchIn (w : World) (l : list BatchRef) (obj : ObjRef)
    : outcome (option BatchRef) :=
  match l with
  | [] => Ret None
  | bt :: l' =>
    match matches w bt obj with
    | Panic msg => Panic msg
    | Ret true => Ret (Some bt)
    | Ret false => findBatchIn w l' obj
    end
  end.

(** [findBatch]: the first batch that matches, [None] for nil. *)
Definition findBatch (obj : ObjRef) : M (option BatchRef) :=
  lift (λ w, findBatchIn w (batches (batcher w)) obj).

(** The loop of [newBatch] over the meshes of the object: each mesh is
    dereferenced, and the mesh type is nil as soon as one mesh is of another
    type than the first; the meshes after that one are not looked at. *)
Fixpoint allOfType (mt : MeshType.meshType) (ms : list (option Mesh))
    : outcome (option MeshType.meshType) :=
  match ms with
  | [] => Ret (Some mt)
  | None :: _ => Panic nilDeref
  | Some mesh :: ms' =>
    match MeshType.equals (MeshType.newMeshType mesh) mt with
    | Some _ => Ret None
    | None => allOfType mt ms'
    end
  end.

(** The mesh type [newBatch] gives the batch: nil without meshes, else that
    of the first mesh, which is dereferenced first, or nil. *)
Definition batchMeshType (ms : list (option Mesh))
    : outcome (option MeshType.meshType) :=
  match ms with
  | [] => Ret None
  | None :: _ => Panic nilDeref
  | Some first :: _ => allOfType (MeshType.newMeshType first) ms
  end.

(** [newBatch]: the batch struct and the array of its texture type are
    newly allocated; the array is filled by [copy].  A panic on a nil mesh
    comes before the batcher is written. *)
Definition newBatch (obj : ObjRef) : M unit :=
  λ w,
    match derefObject w obj with
    | Panic msg => (Panic msg, w)
    | Ret o =>
      match batchMeshType (Meshes o) with
      | Panic msg => (Panic msg, w)
      | Ret mt =>
        let arr := fresh (dom (texArrays w)) in
        let bt := fresh (dom (batchHeap w)) in
        let b := {| batchObject := None;
                    stateType := ObjectState o;
                    shaderType := Shader o;
                    textureType := arr;
                    meshType := mt;
                    objects := [obj] |} in
        (Ret tt,
         {| objs := objs w;
            texArrays := <[arr := readSlice w (Textures o)]> (texArrays w);
            batchHeap := <[bt := b]> (batchHeap w);
            batcher := {| batches := batches (batcher w) ++ [bt];
                          batchByObj := <[obj := bt]> (batchByObj (batcher w)) |};
            canvas := canvas w |})
      end
    end.

(** [addToBatch]: append to the member list, set the index entry, clear the
    cache. *)
Definition addToBatch (obj : ObjRef) (bt : BatchRef) : M unit :=
  b <~ derefBatch bt;
  u <~ modify (λ w, setBatchHeap
                      (<[bt := setObjects (objects b ++ [obj]) b]> (batchHeap w)) w);
  u <~ modify (λ w, setBatcher
                      (setBatchByObj (<[obj := bt]> (batchByObj (batcher w)))
                         (batcher w)) w);
  clearBatch bt.

(** [removeFromBatch].  When the object is the only member of the batch,
    the batch is taken off [b.batches] and the function returns.  Otherwise
    the object is taken off the member list, its index entry is deleted and
    the cache is cleared. *)
Definition removeFromBatch (obj : ObjRef) (bt : BatchRef) : M unit :=
  b <~ derefBatch bt;
  if Nat.eqb (length (objects b)) 1 && bool_decide (objects b !! 0%nat = Some obj)
  then
    λ w, let '(r, l) := deleteInRange bt (batches (batcher w)) in
         (r, setBatcher (setBatches l (batcher w)) w)
  else
    u <~ (λ w, let '(r, l) := deleteInRange obj (objects b) in
               (r, setBatchHeap (<[bt := setObjects l b]> (batchHeap w)) w));
    u <~ modify (λ w, setBatcher
                        (setBatchByObj (delete obj (batchByObj (batcher w)))
                           (batcher w)) w);
    clearBatch bt.

(** The body of the loop of [Add]. *)
Definition addObject (obj : ObjRef) : M unit :=
  w <~ get;
  match batchByObj (batcher w) !! obj with
  | Some bt => clearBatch bt
  | None =>
    found <~ findBatch obj;
    match found with
    | None => newBatch obj
    | Some bt => addToBatch obj bt
    end
  end.

Definition Add (l : list ObjRef) : M unit := forEach l addObject.

(** The body of the loop of [Remove]. *)
Definition removeObject (obj : ObjRef) : M unit :=
  w <~ get;
  match batchByObj (batcher w) !! obj with
  | None => ret tt
  | Some bt => removeFromBatch obj bt
  end.

Definition Remove (l : list ObjRef) : M unit := forEach l removeObject.

(** The body of the loop of [Update]. *)
Definition updateObject (obj : ObjRef) : M unit :=
  w <~ get;
  match batchByObj (batcher w) !! obj with
  | None => newBatch obj
  | Some bt =>
    still <~ lift (λ w, matches w bt obj);
    if negb still then
      u <~ removeFromBatch obj bt;
      wantBatch <~ findBatch obj;
      match wantBatch with
      | Some want => addToBatch obj want
      | None => newBatch obj
      end
    else clearBatch bt
  end.

Definition Update (l : list ObjRef) : M unit := forEach l updateObject.

(** [c.Draw(r, obj, cam)]; the canvas, the rectangle and the camera are the
    same in every call of one [DrawTo] and are left out. *)
Definition draw (d : DrawCall) : M unit :=
  modify (λ w, setCanvas (canvas w ++ [d]) w).

(** The body of the loop of [DrawTo]. *)
Definition drawBatch (bt : BatchRef) : M unit :=
  b <~ derefBatch bt;
  match meshType b with
  | None => forEach (objects b) (λ obj, draw (DrawObject obj))
  | Some _ =>
    o <~ match batchObject b with
         | Some o => ret o
         | None =>
           o <~ lift (λ w, mergeObjects false w (objects b));
           u <~ modify (λ w, setBatchHeap
                               (<[bt := setBatchObject (Some o) b]> (batchHeap w)) w);
           ret o
         end;
    draw (DrawMerged o)
  end.

Definition DrawTo : M unit :=
  w <~ get;
  forEach (batches (batcher w)) drawBatch.

(** [NewBatcher]: an empty batcher in the client's memory, then [Add]. *)
Definition emptyWorld (os : gmap positive Object)
    (ts : gmap positive (list TextureRef)) : World :=
  {| objs := os; texArrays := ts; batchHeap := ∅;
     batcher := {| batches := []; batchByObj := ∅ |}; canvas := [] |}.

Definition NewBatcher (os : gmap positive Object)
    (ts : gmap positive (list TextureRef)) (l : list ObjRef) : outcome unit * World :=
  Add l (emptyWorld os ts).

(** The client's [obj.Textures[i] = t]. *)
Definition setTexture (obj : ObjRef) (i : nat) (t : TextureRef) : M unit :=
  λ w,
    match derefObject w obj with
    | Panic msg => (Panic msg, w)
    | Ret o =>
      let ts := readSlice w (Textures o) in
      if decide (i < length ts)%nat
      then (Ret tt, setTexArrays (<[Textures o := <[i := t]> ts]> (texArrays w)) w)
      else (Panic indexRange, w)
    end.

(** [obj.Textures[i] = t] for each [(i, t)] of [writes], in order. *)
Definition setTextures (obj : positive) (writes : list (nat * TextureRef)) : M unit :=
  forEach writes (λ p, setTexture obj (fst p) (snd p)).

(** ** What a client can observe of a batcher *)

Definition members (w : World) (bt : BatchRef) : list ObjRef :=
  default [] (objects <$> batchHeap w !! bt).

(** The member lists of the batches of the batcher, in the order of
    [b.batches]. *)
Definition partition (w : World) : list (list ObjRef) :=
  members w <$> batches (batcher w).

Definition isDirty (w : World) (bt : BatchRef) : bool :=
  match batchHeap w !! bt with
  | Some b => match batchObject b with None => true | Some _ => false end
  | None => false
  end.

(** An object is tracked when the batcher has an index entry for it. *)
Definition tracked (w : World) (x : ObjRef) : Prop :=
  is_Some (batchByObj (batcher w) !! x).

(** The invariant of section 3: the index and the member lists of the
    batches in use agree, and nothing is listed twice. *)
Record batcherInvariant (w : World) : Prop := {
  inv_index_listed :
    ∀ x bt, batchByObj (batcher w) !! x = Some bt →
      bt ∈ batches (batcher w) ∧ x ∈ members w bt;
  inv_member_indexed :
    ∀ x bt, bt ∈ batches (batcher w) → x ∈ members w bt →
      batchByObj (batcher w) !! x = Some bt;
  inv_batches_nodup : NoDup (batches (batcher w));
  inv_members_nodup :
    ∀ bt, bt ∈ batches (batcher w) → NoDup (members w bt)
}.

(** One call after another, as long as none panics. *)
Definition andThen (r : outcome unit * World) (m : M unit) : outcome unit * World :=
  match r with
  | (Ret _, w) => m w
  | (Panic msg, w) => (Panic msg, w)
  end.

(** ** A small scene

    Objects 11 and 12 have no mesh and no texture; 13 and 16 have one mesh
    each, of the same type; 14 and 15 differ from the others in state,
    shader and textures, 15 with a mesh. *)

Definition defaultState : State := mkState false 0.
Definition ditheredState : State := mkState true 0.

Definition oneVertex : Mesh := meshWith [(0, 0, 0)] [].

Definition sceneTextures : gmap positive (list TextureRef) :=
  list_to_map [(21%positive, []); (22%positive, [Some 9%positive])].

Definition sceneObjects : gmap positive Object :=
  list_to_map
    [(11%positive, mkObject defaultState None 21%positive []);
     (12%positive, mkObject defaultState None 21%positive []);
     (13%positive, mkObject defaultState None 21%positive [Some oneVertex]);
     (14%positive, mkObject ditheredState (Some 7%positive) 22%positive []);
     (15%positive,
      mkObject ditheredState (Some 7%positive) 22%positive [Some oneVertex]);
     (16%positive, mkObject defaultState None 21%positive [Some oneVertex])].

(** [NewBatcher(o11)] *)
Definition batcherOf11 : World :=
  snd (NewBatcher sceneObjects sceneTextures [11%positive]).

(** [b := NewBatcher(o13, o11); b.Remove(o13); b.Add(o16)] *)
Definition batcherOf11and16 : World :=
  snd (andThen (andThen (NewBatcher sceneObjects sceneTextures [13%positive; 11%positive])
                  (Remove [13%positive]))
         (Add [16%positive])).

(** ** What a call leaves alone *)

(** [m] takes every world to one related to it by [R]. *)
Definition keeps {A} (R : World → World → Prop) (m : M A) : Prop :=
  ∀ w, R w (snd (m w)).

(** The fields of a batch that [DrawTo] does not write. *)
Definition sameBatch (b b' : batch) : Prop :=
  stateType b' = stateType b ∧ shaderType b' = shaderType b ∧
  textureType b' = textureType b ∧ meshType b' = meshType b ∧
  objects b' = objects b.

(** The cache of a batch is as it was, or was nil and now holds the merge of
    the members. *)
Definition cacheFilled (w : World) (b b' : batch) : Prop :=
  batchObject b' = batchObject b ∨
  (batchObject b = None ∧
   ∃ o, mergeObjects false w (objects b) = Ret o ∧ batchObject b' = Some o).

Record drawFrame (w w' : World) : Prop := {
  frame_objs : objs w' = objs w;
  frame_texArrays : texArrays w' = texArrays w;
  frame_batcher : batcher w' = batcher w;
  frame_heap :
    ∀ bt, option_Forall2 (λ b b', sameBatch b b' ∧ cacheFilled w b b')
            (batchHeap w !! bt) (batchHeap w' !! bt)
}.

(** What writes of the client into the texture slice of [obj] leave as it
    is: everything but the backing array of that slice. *)
Record textureWrites (obj : positive) (w w' : World) : Prop := {
  tw_objs : objs w' = objs w;
  tw_heap : batchHeap w' = batchHeap w;
  tw_batcher : batcher w' = batcher w;
  tw_others :
    ∀ a, (Textures <$> objs w !! obj) ≠ Some a →
      texArrays w' !! a = texArrays w !! a
}.

(** The calls of [Draw] that the specification asks of [DrawTo] for one
    batch: one per member when the mesh type is nil, else one of the cached
    object, merged first when the cache is nil. *)
Definition drawsOf (w : World) (bt : positive) : list DrawCall :=
  match batchHeap w !! bt with
  | None => []
  | Some b =>
    match meshType b with
    | None => DrawObject <$> objects b
    | Some _ =>
      match batchObject b with
      | Some o => [DrawMerged o]
      | None =>
        match mergeObjects false w (objects b) with
        | Ret o => [DrawMerged o]
        | Panic _ => []
        end
      end
    end
  end.

(** The batch can be drawn: it is allocated, and if it has a mesh type and
    a nil cache, the merge of its members returns. *)
Definition drawable (w : World) (bt : positive) : Prop :=
  ∃ b, batchHeap w !! bt = Some b ∧
       (is_Some (meshType b) → batchObject b = None →
        ∃ o, mergeObjects false w (objects b) = Ret o).

(** What [matches] compares before it looks at the meshes. *)
Definition sameKey (w : World) (b : batch) (o : Object) : Prop :=
  Shader o = shaderType b ∧
  readSlice w (Textures o) = readSlice w (textureType b) ∧
  ObjectState o = stateType b.


(** The mesh is not nil and of the type [t]. *)
Definition ofType (t : MeshType.meshType) (m : option Mesh) : Prop :=
  ∃ m0, m = Some m0 ∧ MeshType.equals (MeshType.newMeshType m0) t = None.

(** The search for a batch and what follows it in [Add] and in [Update]. *)
Definition place (x : positive) : M unit :=
  found <~ findBatch x;
  match found with
  | None => newBatch x
  | Some bt => addToBatch x bt
  end.

(** ** What every state of a batcher satisfies *)

(** No batch of the batcher holds the object. *)
Definition absent (w : World) (x : ObjRef) : Prop :=
  ∀ bt, bt ∈ batches (batcher w) → x ∉ members w bt.

(** The batches of the batcher are distinct and not empty, no object is
    twice in one, every member is a valid object and has its batch as index
    entry; an index entry points to a batch of the batcher that holds the
    object, or to a batch that has left the batcher with the object as its
    only member. *)
Record sound (w : World) : Prop := {
  sound_batches : NoDup (batches (batcher w));
  sound_listed :
    ∀ bt, bt ∈ batches (batcher w) → members w bt ≠ [] ∧ NoDup (members w bt);
  sound_member :
    ∀ bt x, bt ∈ batches (batcher w) → x ∈ members w bt →
      batchByObj (batcher w) !! x = Some bt ∧ is_Some (objs w !! x);
  sound_index :
    ∀ x bt, batchByObj (batcher w) !! x = Some bt →
      (bt ∈ batches (batcher w) ∧ x ∈ members w bt) ∨
      ((bt ∉ batches (batcher w)) ∧ members w bt = [x])
}.

(** The calls of a client: the four methods of the batcher, an assignment
    to the fields of an object (or a new object), and an assignment to an
    element of the texture slice of an object. *)
Inductive call : Type :=
  | CallAdd (l : list ObjRef)
  | CallRemove (l : list ObjRef)
  | CallUpdate (l : list ObjRef)
  | CallDrawTo
  | ClientWrite (x : ObjRef) (o : Object)
  | ClientTexture (x : ObjRef) (i : nat) (t : TextureRef).

Definition perform (c : call) : M unit :=
  match c with
  | CallAdd l => Add l
  | CallRemove l => Remove l
  | CallUpdate l => Update l
  | CallDrawTo => DrawTo
  | ClientWrite x o =>
    modify (λ w, mkWorld (<[x := o]> (objs w)) (texArrays w) (batchHeap w)
                   (batcher w) (canvas w))
  | ClientTexture x i t => setTexture x i t
  end.

(** The state after a sequence of calls; a call that panics leaves the state
    it had reached, and the client goes on. *)
Fixpoint run (cs : list call) (w : World) : World :=
  match cs with
  | [] => w
  | c :: cs' => run cs' (snd (perform c w))
  end.

(** Every index entry points to a batch of the batcher. *)
Definition listedIndex (w : World) : Prop :=
  ∀ x bt, batchByObj (batcher w) !! x = Some bt → bt ∈ batches (batcher w).

(** The object has an index entry to an allocated batch whose cache is
    nil. *)
Definition settled (w : World) (x : ObjRef) : Prop :=
  ∃ bt b, batchByObj (batcher w) !! x = Some bt ∧ batchHeap w !! bt = Some b ∧
          batchObject b = None.

(** The batch is allocated and, if it has a mesh type, its cache is
    filled: [DrawTo] has nothing to merge for it. *)
Definition ready (w : World) (bt : BatchRef) : Prop :=
  ∃ b, batchHeap w !! bt = Some b ∧ (is_Some (meshType b) → is_Some (batchObject b)).

(** The object has no mesh. *)
Definition noMesh (o : Object) : bool :=
  match Meshes o with
  | [] => true
  | _ :: _ => false
  end.

(** * Properties *)

(** ** The mesh merge *)

(** C7: appending the non-indexed mesh onto the indexed one concatenates the
    vertices and extends the indices [2,1,0] by the synthesized indices
    0..2 offset by 3, the vertex count of the indexed mesh before the
    append; the test's [canAppend] check passes. *)
Theorem append_indexed_plain :
  canAppend testIndexedA testPlainB = None ∧
  append testIndexedA testPlainB
    = Ret (meshWith [(0, 1, 2); (3, 4, 5); (6, 7, 8); (8, 7, 6); (5, 4, 3); (2, 1, 0)]
             [2; 1; 0; 3; 4; 5]) ∧
  [2; 1; 0; 3; 4; 5]
    = Indices testIndexedA ++
      offsetIndices (length (Vertices testIndexedA))
        (sequentialIndices (length (Vertices testPlainB))).
Proof. repeat split; vm_compute; reflexivity. Qed.

(** The other three cases of [meshAppendTests], and [TestMeshType]: the
    tests of the repository pass on the model. *)
Lemma TestMeshAppend_other_cases :
  append (meshWith [(0, 1, 2); (3, 4, 5); (6, 7, 8)] [])
         (meshWith [(8, 7, 6); (5, 4, 3); (2, 1, 0)] [])
    = Ret (meshWith [(0, 1, 2); (3, 4, 5); (6, 7, 8); (8, 7, 6); (5, 4, 3); (2, 1, 0)] []) ∧
  append (meshWith [(0, 0, 0); (1, 1, 1); (2, 2, 2)] [0; 1; 2])
         (meshWith [(3, 3, 3); (4, 4, 4); (5, 5, 5)] [2; 2; 1])
    = Ret (meshWith [(0, 0, 0); (1, 1, 1); (2, 2, 2); (3, 3, 3); (4, 4, 4); (5, 5, 5)]
             [0; 1; 2; 5; 5; 4]) ∧
  append (meshWith [(0, 0, 0); (1, 1, 1); (2, 2, 2)] [])
         (meshWith [(3, 3, 3); (4, 4, 4); (5, 5, 5)] [2; 1; 0])
    = Ret (meshWith [(0, 0, 0); (1, 1, 1); (2, 2, 2); (5, 5, 5); (4, 4, 4); (3, 3, 3)] []).
Proof. repeat split; vm_compute; reflexivity. Qed.

Lemma TestMeshType_passes :
  let a := meshWith [(0, 0, 0); (0, 0, 0); (0, 0, 0)] [] in
  let b := mkMesh false false Rect3Zero [] [(0, 0, 0); (0, 0, 0); (0, 0, 0)]
             [(0, 0, 0, 0); (0, 0, 0, 0); (0, 0, 0, 0)] [] [] ∅ in
  MeshType.equals (MeshType.newMeshType a) (MeshType.newMeshType b) = Some "Colors"%string ∧
  canAppend a b = Some "Colors"%string.
Proof. split; vm_compute; reflexivity. Qed.

(** ** The object merge *)

(** C6: [Batch] compares neither state nor shader nor textures.  Objects 11
    and 14, and objects 13 and 15, differ in all three; both calls return,
    with the state, shader and textures of the first object. *)
Theorem Batch_accepts_different_types :
  (ObjectState <$> objs batcherOf11 !! 13%positive) ≠
    (ObjectState <$> objs batcherOf11 !! 15%positive) ∧
  (Shader <$> objs batcherOf11 !! 13%positive) ≠
    (Shader <$> objs batcherOf11 !! 15%positive) ∧
  readSlice batcherOf11 21%positive ≠ readSlice batcherOf11 22%positive ∧
  Batch batcherOf11 [11%positive; 14%positive]
    = Ret (mkMerged defaultState None [] []) ∧
  Batch batcherOf11 [13%positive; 15%positive]
    = Ret (mkMerged defaultState None []
             [meshWith [(0, 0, 0); (0, 0, 0)] []]).
Proof. repeat split; vm_compute; try reflexivity; discriminate. Qed.

(** ** Removal inside a range loop *)

(** Past the last occurrence of [x] the loop changes nothing. *)
Lemma rangeDelete_absent (x : positive) (todo i : nat) (arr : list positive) (len : nat) :
  (i + todo ≤ length arr)%nat →
  (∀ j, (i ≤ j)%nat → arr !! j ≠ Some x) →
  rangeDelete x todo i arr len = (Ret tt, take len arr).
Proof.
  revert i. induction todo as [| todo IH]; intros i Hlen Hno; simpl; [reflexivity |].
  destruct (arr !! i) as [e |] eqn:He.
  - destruct (decide (x = e)) as [<- |].
    + destruct (Hno i); [lia | exact He].
    + apply IH; [lia |]. intros j Hj. apply Hno. lia.
  - apply lookup_ge_None in He. lia.
Qed.

(** On a slice without duplicates the loop takes the one occurrence of [x]
    out and returns. *)
Lemma deleteInRange_NoDup (x : positive) (s : list positive) (k : nat) :
  NoDup s → s !! k = Some x →
  deleteInRange x s = (Ret tt, take k s ++ drop (S k) s).
Proof.
  intros Hnd Hk. unfold deleteInRange.
  assert (Hklt : (k < length s)%nat) by (eapply lookup_lt_Some, Hk).
  assert (H : ∀ todo i, (i ≤ k)%nat → (i + todo = length s)%nat →
            rangeDelete x todo i s (length s) = (Ret tt, take k s ++ drop (S k) s)).
  { induction todo as [| todo IH]; intros i Hik Hlen; [lia |]. simpl.
    destruct (s !! i) as [e |] eqn:He; [| apply lookup_ge_None in He; lia].
    destruct (decide (x = e)) as [<- |].
    - assert (i = k) as -> by (eapply NoDup_lookup; eassumption).
      destruct (decide (k < length s)%nat); [| lia].
      rewrite (take_ge (drop (S k) s)) by (rewrite length_drop; lia).
      rewrite rangeDelete_absent.
      + rewrite app_assoc, take_app_length'; [reflexivity |].
        rewrite length_app, length_take, length_drop. lia.
      + rewrite !length_app, length_take, !length_drop. lia.
      + intros j Hj Hx.
        destruct (decide (j < length s - 1)%nat) as [Hlt | Hge].
        * rewrite app_assoc, lookup_app_l in Hx
            by (rewrite length_app, length_take, length_drop; lia).
          rewrite lookup_app_r in Hx by (rewrite length_take; lia).
          rewrite length_take, lookup_drop in Hx.
          assert (S k + (j - k `min` length s) = k)%nat
            by (eapply NoDup_lookup; eassumption).
          lia.
        * rewrite app_assoc, lookup_app_r in Hx
            by (rewrite length_app, length_take, length_drop; lia).
          rewrite length_app, length_take, length_drop, lookup_drop in Hx.
          assert (length s - 1 + (j - (k `min` length s + (length s - S k))) = k)%nat
            by (eapply NoDup_lookup; eassumption).
          lia.
    - apply IH; [| lia]. destruct (decide (i = k)) as [-> |]; [congruence | lia]. }
  apply (H (length s) 0%nat); lia.
Qed.

Lemma deleteInRange_absent (x : positive) (s : list positive) :
  x ∉ s → deleteInRange x s = (Ret tt, s).
Proof.
  intros Hx. unfold deleteInRange. rewrite rangeDelete_absent, firstn_all; auto.
  intros j _ Hj. apply Hx. eapply list_elem_of_lookup_2, Hj.
Qed.

(** ** [matches] *)

Lemma sameTextures_returns (i : nat) (bts ots : list TextureRef) :
  (i + length bts ≤ length ots)%nat → ∃ r, sameTextures i bts ots = Ret r.
Proof.
  revert i. induction bts as [| tex bts IH]; intros i Hlen; simpl in *; [eauto |].
  destruct (ots !! i) as [t |] eqn:Ht; [| apply lookup_ge_None in Ht; lia].
  destruct (decide (t = tex)); [apply IH; lia | eauto].
Qed.

Lemma sameMeshType_typed (t : MeshType.meshType) (ms : list (option Mesh)) :
  Forall is_Some ms → ∃ r, sameMeshType (Some t) ms = Ret r.
Proof.
  induction 1 as [| m ms [m0 ->] _ IH]; simpl; [eauto |].
  destruct (MeshType.equals (MeshType.newMeshType m0) t); eauto.
Qed.

(** With a mesh type in the batch and no nil mesh in the object, or no mesh
    in the object, [matches] answers. *)
Lemma matches_returns (w : World) (bt obj : positive) (b : batch) (o : Object) :
  batchHeap w !! bt = Some b → objs w !! obj = Some o →
  (is_Some (meshType b) ∧ Forall is_Some (Meshes o)) ∨ Meshes o = [] →
  ∃ r, matches w bt obj = Ret r.
Proof.
  intros Hb Ho Hty. unfold matches, derefObject. rewrite Ho, Hb.
  destruct (negb (bool_decide (Shader o = shaderType b))); [eauto |].
  destruct (Nat.eqb (length (readSlice w (Textures o)))
              (length (readSlice w (textureType b)))) eqn:Hlen; simpl; [| eauto].
  apply Nat.eqb_eq in Hlen.
  destruct (sameTextures_returns 0 (readSlice w (textureType b))
              (readSlice w (Textures o))) as [[] ->]; [simpl; lia | | eauto].
  destruct (negb (bool_decide (ObjectState o = stateType b))); [eauto |].
  destruct Hty as [[[t ->] Hms] | ->]; [apply sameMeshType_typed, Hms | simpl; eauto].
Qed.

(** With a nil mesh type in the batch and a mesh in the object, [matches]
    answers false when shader, textures or state differ, and panics when
    they agree. *)
Lemma matches_untyped (w : World) (bt obj : positive) (b : batch) (o : Object) :
  batchHeap w !! bt = Some b → objs w !! obj = Some o →
  meshType b = None → Meshes o ≠ [] →
  matches w bt obj = Ret false ∨ matches w bt obj = Panic nilDeref.
Proof.
  intros Hb Ho Hty Hms. unfold matches, derefObject. rewrite Ho, Hb.
  destruct (negb (bool_decide (Shader o = shaderType b))); [auto |].
  destruct (Nat.eqb (length (readSlice w (Textures o)))
              (length (readSlice w (textureType b)))) eqn:Hlen; simpl; [| auto].
  apply Nat.eqb_eq in Hlen.
  destruct (sameTextures_returns 0 (readSlice w (textureType b))
              (readSlice w (Textures o))) as [[] ->]; [simpl; lia | | auto].
  destruct (negb (bool_decide (ObjectState o = stateType b))); [auto |].
  rewrite Hty. destruct (Meshes o) as [| [m |] ms]; [congruence | auto ..].
Qed.

(** C4: [matches] dereferences the nil mesh type of the batch of object 11
    as soon as the object it is asked about has a mesh: for object 13,
    which agrees with the batch in shader, textures and state, it panics.
    For object 12, which has no mesh, it answers. *)
Theorem matches_nil_meshType_panics :
  (meshType <$> batchHeap batcherOf11 !! 1%positive) = Some None ∧
  (Meshes <$> objs batcherOf11 !! 13%positive) = Some [Some oneVertex] ∧
  matches batcherOf11 1%positive 13%positive = Panic nilDeref ∧
  matches batcherOf11 1%positive 12%positive = Ret true.
Proof. repeat split; vm_compute; reflexivity. Qed.

(** ** [Add] *)

Lemma clearBatch_world (w : World) (bt : positive) (b : batch) :
  batchHeap w !! bt = Some b →
  clearBatch bt w
  = (Ret tt, setBatchHeap (<[bt := setBatchObject None b]> (batchHeap w)) w).
Proof. intros Hb. unfold clearBatch, bind, derefBatch. rewrite Hb. reflexivity. Qed.

Lemma addToBatch_world (w : World) (x bt : positive) (b : batch) :
  batchHeap w !! bt = Some b →
  addToBatch x bt w
  = (Ret tt,
     {| objs := objs w;
        texArrays := texArrays w;
        batchHeap :=
          <[bt := setBatchObject None (setObjects (objects b ++ [x]) b)]>
            (batchHeap w);
        batcher := setBatchByObj (<[x := bt]> (batchByObj (batcher w))) (batcher w);
        canvas := canvas w |}).
Proof.
  intros Hb. unfold addToBatch, bind, derefBatch, modify. rewrite Hb.
  unfold clearBatch, bind, derefBatch, modify. simpl.
  rewrite lookup_insert_eq. unfold setBatchHeap. simpl.
  rewrite insert_insert_eq. reflexivity.
Qed.

Lemma matches_allocated (w : World) (bt obj : positive) (r : bool) :
  matches w bt obj = Ret r → is_Some (batchHeap w !! bt).
Proof.
  unfold matches. destruct (derefObject w obj); [| discriminate].
  destruct (batchHeap w !! bt); [eauto | discriminate].
Qed.

Lemma findBatchIn_Some (w : World) (l : list positive) (obj bt : positive) :
  findBatchIn w l obj = Ret (Some bt) → bt ∈ l ∧ is_Some (batchHeap w !! bt).
Proof.
  induction l as [| c l IH]; simpl; [discriminate |].
  destruct (matches w c obj) as [[] | msg] eqn:Hm; [| | discriminate].
  - intros [= <-]. split; [left | eapply matches_allocated, Hm].
  - intros H. destruct (IH H). split; [right |]; assumption.
Qed.

Lemma findBatchIn_None (w : World) (l : list positive) (obj : positive) :
  findBatchIn w l obj = Ret None → ∀ bt, bt ∈ l → is_Some (batchHeap w !! bt).
Proof.
  induction l as [| c l IH]; simpl; intros H bt Hin.
  - inversion Hin.
  - destruct (matches w c obj) as [[] | msg] eqn:Hm; try discriminate.
    apply elem_of_cons in Hin as [-> | Hin]; [eapply matches_allocated, Hm |].
    apply IH; assumption.
Qed.

(** The invariant only looks at the batcher and at the member lists. *)
Lemma batcherInvariant_members (w w' : World) :
  batcher w' = batcher w → (∀ bt, members w' bt = members w bt) →
  batcherInvariant w → batcherInvariant w'.
Proof.
  intros Hb Hm [H1 H2 H3 H4]. split; rewrite ?Hb.
  - intros x bt. rewrite Hm. apply H1.
  - intros x bt. rewrite Hm. apply H2.
  - exact H3.
  - intros bt. rewrite Hm. apply H4.
Qed.

Lemma addObject_invariant (w : World) (x : positive) :
  batcherInvariant w → fst (addObject x w) = Ret tt →
  batcherInvariant (snd (addObject x w)) ∧
  ∃ bt, batchByObj (batcher (snd (addObject x w))) !! x = Some bt ∧
        isDirty (snd (addObject x w)) bt = true.
Proof.
  intros Hinv. pose proof Hinv as [H1 H2 H3 H4].
  unfold addObject, bind, get.
  destruct (batchByObj (batcher w) !! x) as [bt |] eqn:Hx.
  - (* already tracked: the cache of its batch is cleared *)
    unfold clearBatch, bind, derefBatch.
    destruct (batchHeap w !! bt) as [b |] eqn:Hb; [| discriminate].
    intros _. simpl. split.
    + apply (batcherInvariant_members w); [reflexivity | | exact Hinv].
      intros bt'. unfold members. simpl.
      destruct (decide (bt = bt')) as [<- |].
      * rewrite lookup_insert_eq, Hb. reflexivity.
      * rewrite lookup_insert_ne by assumption. reflexivity.
    + exists bt. split; [exact Hx |]. unfold isDirty. simpl.
      rewrite lookup_insert_eq. reflexivity.
  - unfold findBatch, lift.
    destruct (findBatchIn w (batches (batcher w)) x) as [[bt |] | msg] eqn:Hf;
      [| | discriminate].
    + (* a batch matches: the object joins it *)
      apply findBatchIn_Some in Hf as [Hin [b Hb]].
      rewrite (addToBatch_world w x bt b Hb). intros _. simpl.
      assert (Hnot : ∀ bt', bt' ∈ batches (batcher w) → x ∉ members w bt').
      { intros bt' Hl Hmem. rewrite (H2 x bt' Hl Hmem) in Hx. discriminate. }
      assert (Hmb : members w bt = objects b).
      { unfold members. rewrite Hb. reflexivity. }
      split; [split; simpl |].
      * intros y bt'. unfold members. simpl.
        destruct (decide (x = y)) as [<- | Hne].
        -- rewrite lookup_insert_eq. intros [= <-].
           rewrite lookup_insert_eq. simpl. split; [exact Hin |].
           apply elem_of_app. right. left.
        -- rewrite lookup_insert_ne by assumption. intros Hy.
           destruct (H1 y bt' Hy) as [Hl Hmem]. split; [exact Hl |].
           destruct (decide (bt = bt')) as [<- |].
           ++ rewrite lookup_insert_eq. simpl. apply elem_of_app. left.
              rewrite <- Hmb. exact Hmem.
           ++ rewrite lookup_insert_ne by assumption. exact Hmem.
      * intros y bt' Hl. unfold members. simpl.
        destruct (decide (bt = bt')) as [<- |].
        -- rewrite lookup_insert_eq. simpl. intros Hy.
           apply elem_of_app in Hy as [Hy | Hy].
           ++ rewrite <- Hmb in Hy. rewrite lookup_insert_ne; [apply H2; assumption |].
              intros <-. exact (Hnot bt Hl Hy).
           ++ apply list_elem_of_singleton in Hy as ->. apply lookup_insert_eq.
        -- rewrite lookup_insert_ne by assumption. intros Hy.
           rewrite lookup_insert_ne; [apply H2; assumption |].
           intros <-. exact (Hnot bt' Hl Hy).
      * exact H3.
      * intros bt' Hl. unfold members. simpl.
        destruct (decide (bt = bt')) as [<- |].
        -- rewrite lookup_insert_eq. simpl. apply NoDup_app. split; [| split].
           ++ rewrite <- Hmb. apply H4, Hl.
           ++ intros y Hy Hy'. apply list_elem_of_singleton in Hy' as ->.
              rewrite <- Hmb in Hy. exact (Hnot bt Hl Hy).
           ++ apply NoDup_singleton.
        -- rewrite lookup_insert_ne by assumption. apply H4, Hl.
      * exists bt. split; [apply lookup_insert_eq |]. unfold isDirty. simpl.
        rewrite lookup_insert_eq. reflexivity.
    + (* no batch matches: a new batch *)
      pose proof (findBatchIn_None w _ x Hf) as Halloc.
      unfold newBatch, derefObject.
      destruct (objs w !! x) as [o |]; [| discriminate].
      destruct (batchMeshType (Meshes o)) as [mt | ?]; [| discriminate].
      intros _. simpl.
      set (nb := fresh (dom (batchHeap w))).
      assert (Hnb : batchHeap w !! nb = None).
      { apply not_elem_of_dom, is_fresh. }
      assert (Hnl : nb ∉ batches (batcher w)).
      { intros Hl. destruct (Halloc nb Hl) as [b Hb]. congruence. }
      assert (Hnot : ∀ bt', bt' ∈ batches (batcher w) → x ∉ members w bt').
      { intros bt' Hl Hmem. rewrite (H2 x bt' Hl Hmem) in Hx. discriminate. }
      split; [split; simpl |].
      * intros y bt'. unfold members. simpl.
        destruct (decide (x = y)) as [<- | Hne].
        -- rewrite lookup_insert_eq. intros [= <-].
           rewrite lookup_insert_eq. simpl. split.
           ++ apply elem_of_app. right. left.
           ++ left.
        -- rewrite lookup_insert_ne by assumption. intros Hy.
           destruct (H1 y bt' Hy) as [Hl Hmem].
           split; [apply elem_of_app; left; exact Hl |].
           rewrite lookup_insert_ne; [exact Hmem |]. intros <-. exact (Hnl Hl).
      * intros y bt' Hl. unfold members. simpl.
        apply elem_of_app in Hl as [Hl | Hl].
        -- rewrite lookup_insert_ne by (intros <-; exact (Hnl Hl)). intros Hy.
           rewrite lookup_insert_ne; [apply H2; assumption |].
           intros <-. exact (Hnot bt' Hl Hy).
        -- apply list_elem_of_singleton in Hl as ->. rewrite lookup_insert_eq.
           simpl. intros Hy. apply list_elem_of_singleton in Hy as ->.
           apply lookup_insert_eq.
      * apply NoDup_app. split; [exact H3 | split; [| apply NoDup_singleton]].
        intros bt' Hl Hl'. apply list_elem_of_singleton in Hl' as ->. exact (Hnl Hl).
      * intros bt' Hl. unfold members. simpl.
        apply elem_of_app in Hl as [Hl | Hl].
        -- rewrite lookup_insert_ne by (intros <-; exact (Hnl Hl)). apply H4, Hl.
        -- apply list_elem_of_singleton in Hl as ->. rewrite lookup_insert_eq.
           simpl. apply NoDup_singleton.
      * exists nb. split; [apply lookup_insert_eq |]. unfold isDirty. simpl.
        rewrite lookup_insert_eq. reflexivity.
Qed.

(** A panic of [Add] is raised before anything is written. *)
Lemma addObject_panic (w : World) (x : positive) (msg : string) :
  fst (addObject x w) = Panic msg → snd (addObject x w) = w.
Proof.
  unfold addObject, bind, get.
  destruct (batchByObj (batcher w) !! x) as [bt |].
  - unfold clearBatch, bind, derefBatch.
    destruct (batchHeap w !! bt); [discriminate | reflexivity].
  - unfold findBatch, lift.
    destruct (findBatchIn w (batches (batcher w)) x) as [[bt |] | ?] eqn:Hf;
      [| | reflexivity].
    + apply findBatchIn_Some in Hf as [_ [b Hb]].
      rewrite (addToBatch_world w x bt b Hb). discriminate.
    + unfold newBatch. destruct (derefObject w x) as [o | ?]; [| reflexivity].
      destruct (batchMeshType (Meshes o)); [discriminate | reflexivity].
Qed.

(** [Add] keeps the invariant, whether it returns or panics. *)
Lemma Add_invariant (l : list positive) (w : World) :
  batcherInvariant w → batcherInvariant (snd (Add l w)).
Proof.
  unfold Add. revert w. induction l as [| x l IH]; intros w Hinv; simpl;
    [exact Hinv |].
  unfold bind. pose proof (addObject_invariant w x Hinv) as Hx.
  pose proof (addObject_panic w x) as Hp.
  destruct (addObject x w) as [[[] | msg] w1]; simpl in *.
  - destruct Hx as [Hinv1 _]; [reflexivity |]. apply IH, Hinv1.
  - rewrite (Hp msg eq_refl). exact Hinv.
Qed.

Lemma emptyWorld_invariant (os : gmap positive Object)
    (ts : gmap positive (list TextureRef)) :
  batcherInvariant (emptyWorld os ts).
Proof.
  split; simpl.
  - intros x bt H. rewrite lookup_empty in H. discriminate.
  - intros x bt H. inversion H.
  - constructor.
  - intros bt H. inversion H.
Qed.

(** [NewBatcher] establishes the invariant. *)
Lemma NewBatcher_invariant (os : gmap positive Object)
    (ts : gmap positive (list TextureRef)) (l : list positive) :
  batcherInvariant (snd (NewBatcher os ts l)).
Proof. apply Add_invariant, emptyWorld_invariant. Qed.

Lemma Add_single (x : positive) (w : World) : Add [x] w = addObject x w.
Proof.
  unfold Add. simpl. unfold bind, ret.
  destruct (addObject x w) as [[[] | msg] w1]; reflexivity.
Qed.

(** When the first [Add(x)] returns, a second one returns too and only
    clears the cache of the batch of [x]: the batcher and the member lists
    are those the first call left, [x] is in the batch the index gives for
    it and in no other, once. *)
Lemma Add_twice (w : World) (x : positive) :
  batcherInvariant w → fst (Add [x] w) = Ret tt →
  let w1 := snd (Add [x] w) in
  let w2 := snd (andThen (Add [x] w) (Add [x])) in
  fst (andThen (Add [x] w) (Add [x])) = Ret tt ∧
  batcherInvariant w2 ∧
  batcher w2 = batcher w1 ∧
  partition w2 = partition w1 ∧
  ∃ bt, batchByObj (batcher w2) !! x = Some bt ∧
        bt ∈ batches (batcher w2) ∧
        x ∈ members w2 bt ∧
        NoDup (members w2 bt) ∧
        isDirty w2 bt = true ∧
        ∀ bt', bt' ∈ batches (batcher w2) → x ∈ members w2 bt' → bt' = bt.
Proof.
  intros Hinv. rewrite Add_single. intros Hr.
  destruct (addObject_invariant w x Hinv Hr) as [Hinv1 (bt & Hbt & _)].
  destruct (addObject x w) as [[[] | msg] w1] eqn:Hw1; simpl in *; [| discriminate].
  rewrite Add_single.
  destruct (inv_index_listed w1 Hinv1 x bt Hbt) as [Hl Hmem].
  assert (Hb : is_Some (batchHeap w1 !! bt)).
  { unfold members in Hmem. destruct (batchHeap w1 !! bt); [eauto |].
    simpl in Hmem. inversion Hmem. }
  destruct Hb as [b Hb].
  assert (Hw2 : addObject x w1
                = (Ret tt, setBatchHeap (<[bt := setBatchObject None b]> (batchHeap w1)) w1)).
  { unfold addObject, bind, get. rewrite Hbt. apply clearBatch_world, Hb. }
  rewrite Hw2. simpl.
  assert (Hmems : ∀ bt', members (setBatchHeap (<[bt := setBatchObject None b]>
                                   (batchHeap w1)) w1) bt' = members w1 bt').
  { intros bt'. unfold members. simpl. destruct (decide (bt = bt')) as [<- |].
    - rewrite lookup_insert_eq, Hb. reflexivity.
    - rewrite lookup_insert_ne by assumption. reflexivity. }
  split; [reflexivity |].
  split; [apply (batcherInvariant_members w1); [reflexivity | exact Hmems | exact Hinv1] |].
  split; [reflexivity |].
  split.
  { unfold partition. simpl. apply list_fmap_ext. intros _ bt' _. apply Hmems. }
  exists bt. rewrite !Hmems.
  split; [exact Hbt |]. split; [exact Hl |]. split; [exact Hmem |].
  split; [apply (inv_members_nodup w1 Hinv1), Hl |].
  split; [unfold isDirty; simpl; rewrite lookup_insert_eq; reflexivity |].
  intros bt' Hl' Hmem'. rewrite Hmems in Hmem'.
  pose proof (inv_member_indexed w1 Hinv1 x bt' Hl' Hmem'). congruence.
Qed.

(** C8: two objects that no batch of the batcher holds, and [Add] twice.
    The first [Add] of object 13, which has no index entry, panics in
    [matches] on the nil mesh type of the batch of object 11, and object 13
    ends in no batch.  Object 11, once [Remove] has taken it with its batch
    off the batcher, still has its index entry: both calls of [Add] take it
    for tracked and return, and no batch holds it afterwards. *)
Theorem Add_twice_without_batch :
  (¬ tracked batcherOf11 13%positive ∧
   fst (Add [13%positive] batcherOf11) = Panic nilDeref ∧
   partition (snd (Add [13%positive] batcherOf11)) = [[11%positive]] ∧
   batchByObj (batcher (snd (Add [13%positive] batcherOf11))) !! 13%positive = None) ∧
  (let w := snd (Remove [11%positive] batcherOf11) in
   partition w = [] ∧
   fst (andThen (Add [11%positive] w) (Add [11%positive])) = Ret tt ∧
   partition (snd (andThen (Add [11%positive] w) (Add [11%positive]))) = []).
Proof.
  split.
  - split.
    + unfold tracked. intros [bt H]. vm_compute in H. discriminate.
    + repeat split; vm_compute; reflexivity.
  - repeat split; vm_compute; reflexivity.
Qed.

(** ** [Remove] *)

Lemma elem_of_cut (l : list positive) (k : nat) (x y : positive) :
  NoDup l → l !! k = Some x →
  y ∈ take k l ++ drop (S k) l ↔ y ∈ l ∧ y ≠ x.
Proof.
  intros Hnd Hk. pose proof (take_drop_middle l k x Hk) as Hl.
  rewrite <- Hl in Hnd. apply NoDup_app in Hnd as (_ & Hx1 & Hnd).
  apply NoDup_cons in Hnd as [Hx2 _].
  rewrite <- Hl at 3. rewrite !elem_of_app, elem_of_cons. split.
  - intros [Hy | Hy]; (split; [tauto |]); intros ->.
    + apply (Hx1 x Hy). left.
    + exact (Hx2 Hy).
  - intros [[Hy | [-> | Hy]] Hne]; tauto.
Qed.

Lemma NoDup_cut (l : list positive) (k : nat) :
  NoDup l → NoDup (take k l ++ drop (S k) l).
Proof.
  rewrite <- delete_take_drop. intros H.
  eapply sublist_NoDup; [exact H | apply sublist_delete].
Qed.

(** [removeFromBatch] on a batch that has other members: the object leaves
    the member list and the index, and the cache is cleared. *)
Lemma removeFromBatch_member (w : World) (x bt : positive) (b : batch) (k : nat) :
  batchHeap w !! bt = Some b → NoDup (objects b) →
  objects b !! k = Some x → objects b ≠ [x] →
  removeFromBatch x bt w
  = (Ret tt,
     {| objs := objs w;
        texArrays := texArrays w;
        batchHeap :=
          <[bt := setBatchObject None
                    (setObjects (take k (objects b) ++ drop (S k) (objects b)) b)]>
            (batchHeap w);
        batcher := setBatchByObj (delete x (batchByObj (batcher w))) (batcher w);
        canvas := canvas w |}).
Proof.
  intros Hb Hnd Hk Hne. unfold removeFromBatch, bind, derefBatch. rewrite Hb.
  assert (Nat.eqb (length (objects b)) 1
          && bool_decide (objects b !! 0%nat = Some x) = false) as ->.
  { apply andb_false_iff.
    destruct (objects b) as [| y [| z l]] eqn:E; simpl; auto.
    right. apply bool_decide_eq_false. intros [= ->]. congruence. }
  rewrite (deleteInRange_NoDup x (objects b) k Hnd Hk).
  unfold modify, clearBatch, bind, derefBatch. simpl.
  rewrite lookup_insert_eq. unfold modify, setBatchHeap, setBatcher. simpl.
  rewrite insert_insert_eq. reflexivity.
Qed.

(** [removeFromBatch] on a batch whose only member is the object: the batch
    leaves the list of batches, and nothing else changes. *)
Lemma removeFromBatch_last (w : World) (x bt : positive) (b : batch) (k : nat) :
  batchHeap w !! bt = Some b → objects b = [x] →
  NoDup (batches (batcher w)) → batches (batcher w) !! k = Some bt →
  removeFromBatch x bt w
  = (Ret tt,
     setBatcher (setBatches (take k (batches (batcher w))
                             ++ drop (S k) (batches (batcher w))) (batcher w)) w).
Proof.
  intros Hb Hobj Hnd Hk. unfold removeFromBatch, bind, derefBatch.
  rewrite Hb, Hobj. simpl. rewrite bool_decide_eq_true_2 by reflexivity.
  rewrite (deleteInRange_NoDup bt _ k Hnd Hk). reflexivity.
Qed.

Lemma Remove_single (x : positive) (w : World) : Remove [x] w = removeObject x w.
Proof.
  unfold Remove. simpl. unfold bind, ret.
  destruct (removeObject x w) as [[[] | msg] w1]; reflexivity.
Qed.

Lemma members_Some (w : World) (bt x : positive) :
  x ∈ members w bt → ∃ b, batchHeap w !! bt = Some b ∧ members w bt = objects b.
Proof.
  unfold members. destruct (batchHeap w !! bt) as [b |]; simpl; [eauto |].
  intros H. inversion H.
Qed.

(** [Remove] of an object that is not alone in its batch does what the
    specification says, and keeps the invariant. *)
Lemma Remove_member (w : World) (x bt : positive) :
  batcherInvariant w →
  batchByObj (batcher w) !! x = Some bt → members w bt ≠ [x] →
  let w' := snd (Remove [x] w) in
  fst (Remove [x] w) = Ret tt ∧
  batchByObj (batcher w') !! x = None ∧
  (∀ y, y ∈ members w' bt ↔ y ∈ members w bt ∧ y ≠ x) ∧
  isDirty w' bt = true ∧
  batches (batcher w') = batches (batcher w) ∧
  batcherInvariant w'.
Proof.
  intros Hinv Hx Hne. pose proof Hinv as [H1 H2 H3 H4].
  destruct (H1 x bt Hx) as [Hl Hmem].
  destruct (members_Some w bt x Hmem) as (b & Hb & Hmb).
  rewrite Hmb in Hmem, Hne.
  apply list_elem_of_lookup_1 in Hmem as [k Hk].
  assert (Hnd : NoDup (objects b)) by (rewrite <- Hmb; apply H4, Hl).
  rewrite Remove_single. unfold removeObject, bind, get. rewrite Hx.
  rewrite (removeFromBatch_member w x bt b k Hb Hnd Hk Hne). simpl.
  assert (Hnew : ∀ bt', members
            {| objs := objs w; texArrays := texArrays w;
               batchHeap := <[bt := setBatchObject None
                    (setObjects (take k (objects b) ++ drop (S k) (objects b)) b)]>
                    (batchHeap w);
               batcher := setBatchByObj (delete x (batchByObj (batcher w))) (batcher w);
               canvas := canvas w |} bt'
            = if decide (bt = bt') then take k (objects b) ++ drop (S k) (objects b)
              else members w bt').
  { intros bt'. unfold members. simpl. destruct (decide (bt = bt')) as [<- |].
    - rewrite lookup_insert_eq. reflexivity.
    - rewrite lookup_insert_ne by assumption. reflexivity. }
  split; [reflexivity |].
  split; [apply lookup_delete_eq |].
  split.
  { intros y. rewrite Hnew, decide_True, Hmb by reflexivity.
    apply elem_of_cut; assumption. }
  split; [unfold isDirty; simpl; rewrite lookup_insert_eq; reflexivity |].
  split; [reflexivity |].
  split; simpl.
  - intros y bt' Hy. rewrite Hnew.
    destruct (decide (x = y)) as [<- | Hxy]; [rewrite lookup_delete_eq in Hy; discriminate |].
    rewrite lookup_delete_ne in Hy by assumption.
    destruct (H1 y bt' Hy) as [Hl' Hmem']. split; [exact Hl' |].
    destruct (decide (bt = bt')) as [<- |]; [| exact Hmem'].
    apply (elem_of_cut _ k x); [assumption .. |].
    rewrite <- Hmb. split; [exact Hmem' | congruence].
  - intros y bt' Hl'. rewrite Hnew.
    destruct (decide (bt = bt')) as [<- |].
    + intros Hy. apply (elem_of_cut _ k x) in Hy as [Hy Hxy]; [| assumption ..].
      rewrite lookup_delete_ne by congruence. apply H2; [exact Hl |].
      rewrite Hmb. exact Hy.
    + intros Hy. pose proof (H2 y bt' Hl' Hy) as Hy'.
      rewrite lookup_delete_ne; [exact Hy' |]. intros <-. congruence.
  - exact H3.
  - intros bt' Hl'. rewrite Hnew. destruct (decide (bt = bt')) as [<- |].
    + apply NoDup_cut, Hnd.
    + apply H4, Hl'.
Qed.

(** [Remove] of the only member of a batch, in general: the batch leaves the
    list, the index entry of the object stays, and the invariant is
    lost. *)
Lemma Remove_last_member (w : World) (x bt : positive) :
  batcherInvariant w →
  batchByObj (batcher w) !! x = Some bt → members w bt = [x] →
  let w' := snd (Remove [x] w) in
  fst (Remove [x] w) = Ret tt ∧
  (bt ∉ batches (batcher w')) ∧
  batchByObj (batcher w') !! x = Some bt ∧
  members w' bt = [x] ∧
  ¬ batcherInvariant w'.
Proof.
  intros Hinv Hx Hone. pose proof Hinv as [H1 H2 H3 H4].
  destruct (H1 x bt Hx) as [Hl Hmem].
  destruct (members_Some w bt x Hmem) as (b & Hb & Hmb).
  rewrite Hmb in Hone.
  pose proof Hl as Hl'. apply list_elem_of_lookup_1 in Hl' as [k Hk].
  rewrite Remove_single. unfold removeObject, bind, get. rewrite Hx.
  rewrite (removeFromBatch_last w x bt b k Hb Hone H3 Hk). simpl.
  assert (Hout : bt ∉ take k (batches (batcher w)) ++ drop (S k) (batches (batcher w))).
  { intros Hin. apply (elem_of_cut _ k bt) in Hin as [_ Hne]; [| assumption ..].
    congruence. }
  split; [reflexivity |]. split; [exact Hout |]. split; [exact Hx |].
  split; [unfold members; simpl; rewrite Hb; exact Hone |].
  intros [H1' _ _ _]. simpl in H1'. destruct (H1' x bt Hx) as [Hin _].
  exact (Hout Hin).
Qed.

(** C2: [Remove] of the only member of a batch takes the batch off the list
    of batches and returns before the index is updated: object 11 keeps its
    index entry and stays in the member list of the batch that is gone. *)
Theorem Remove_last_member_keeps_index :
  batchByObj (batcher batcherOf11) !! 11%positive = Some 1%positive ∧
  members batcherOf11 1%positive = [11%positive] ∧
  batches (batcher batcherOf11) = [1%positive] ∧
  fst (Remove [11%positive] batcherOf11) = Ret tt ∧
  batches (batcher (snd (Remove [11%positive] batcherOf11))) = [] ∧
  batchByObj (batcher (snd (Remove [11%positive] batcherOf11))) !! 11%positive
    = Some 1%positive ∧
  members (snd (Remove [11%positive] batcherOf11)) 1%positive = [11%positive].
Proof. repeat split; vm_compute; reflexivity. Qed.

(** C3: the invariant holds of the batcher made by [NewBatcher(o11)], and
    [Remove(o11)] breaks it: the index entry of object 11 is left pointing
    at a batch that is no longer in the list of batches. *)
Theorem Remove_breaks_invariant :
  batcherInvariant batcherOf11 ∧
  fst (Remove [11%positive] batcherOf11) = Ret tt ∧
  ¬ batcherInvariant (snd (Remove [11%positive] batcherOf11)).
Proof.
  split; [apply NewBatcher_invariant |].
  split; [vm_compute; reflexivity |].
  intros [H _ _ _].
  destruct (H 11%positive 1%positive) as [Hin _]; [vm_compute; reflexivity |].
  vm_compute in Hin. inversion Hin.
Qed.

(** ** [Update] *)

(** C1: [Update] is not [Remove] followed by [Add].  For the untracked
    object 12, [Update] opens a second batch although the batch of object
    11 matches it, where [Remove; Add] puts it into that batch.  For the
    tracked object 11, alone in its batch, [Update] keeps the batch, where
    [Remove; Add] leaves the batcher without any batch. *)
Theorem Update_is_not_Remove_Add :
  (¬ tracked batcherOf11 12%positive ∧
   fst (Update [12%positive] batcherOf11) = Ret tt ∧
   partition (snd (Update [12%positive] batcherOf11))
     = [[11%positive]; [12%positive]] ∧
   fst (andThen (Remove [12%positive] batcherOf11) (Add [12%positive])) = Ret tt ∧
   partition (snd (andThen (Remove [12%positive] batcherOf11) (Add [12%positive])))
     = [[11%positive; 12%positive]]) ∧
  (tracked batcherOf11 11%positive ∧
   fst (Update [11%positive] batcherOf11) = Ret tt ∧
   partition (snd (Update [11%positive] batcherOf11)) = [[11%positive]] ∧
   fst (andThen (Remove [11%positive] batcherOf11) (Add [11%positive])) = Ret tt ∧
   partition (snd (andThen (Remove [11%positive] batcherOf11) (Add [11%positive])))
     = []).
Proof.
  split.
  - split.
    + unfold tracked. intros [bt H]. vm_compute in H. discriminate.
    + repeat split; vm_compute; reflexivity.
  - split.
    + exists 1%positive. vm_compute. reflexivity.
    + repeat split; vm_compute; reflexivity.
Qed.

(** ** [DrawTo] *)

Section Keeps.
Context (R : World → World → Prop) `{!Reflexive R} `{!Transitive R}.

Lemma keeps_ret {A} (a : A) : keeps R (ret a).
Proof. intros w. reflexivity. Qed.

Lemma keeps_bind {A B} (m : M A) (k : A → M B) :
  keeps R m → (∀ a, keeps R (k a)) → keeps R (bind m k).
Proof.
  intros Hm Hk w. unfold bind. specialize (Hm w).
  destruct (m w) as [[a | msg] w']; simpl in *; [| exact Hm].
  etransitivity; [exact Hm | apply Hk].
Qed.

Lemma keeps_forEach {A} (l : list A) (body : A → M unit) :
  (∀ x, keeps R (body x)) → keeps R (forEach l body).
Proof.
  intros Hb. induction l as [| x l IH]; simpl.
  - apply keeps_ret.
  - apply keeps_bind; [apply Hb | intros _; exact IH].
Qed.
End Keeps.

Lemma mergeObjects_frame (checkMt : bool) (w w' : World) (l : list positive) :
  objs w' = objs w → texArrays w' = texArrays w →
  mergeObjects checkMt w' l = mergeObjects checkMt w l.
Proof.
  intros Ho Ht.
  assert (Hd : ∀ l, derefAll w' l = derefAll w l).
  { clear l. induction l as [| x l IH]; simpl; [reflexivity |].
    unfold derefObject. rewrite Ho, IH. reflexivity. }
  unfold mergeObjects, readSlice, derefObject. rewrite Hd, Ht, Ho. reflexivity.
Qed.

#[local] Instance drawFrame_refl : Reflexive drawFrame.
Proof.
  intros w. split; try reflexivity.
  intros bt. destruct (batchHeap w !! bt) as [b |]; constructor.
  split; [repeat split | left; reflexivity].
Qed.

#[local] Instance drawFrame_trans : Transitive drawFrame.
Proof.
  intros w1 w2 w3 [Ho1 Ht1 Hb1 Hh1] [Ho2 Ht2 Hb2 Hh2].
  split; try congruence.
  intros bt. specialize (Hh1 bt). specialize (Hh2 bt).
  destruct Hh1 as [b1 b2 [Hs1 Hc1] |]; inversion Hh2 as [? b3 [Hs2 Hc2] |]; subst;
    constructor.
  split.
  - destruct Hs1 as (? & ? & ? & ? & ?), Hs2 as (? & ? & ? & ? & ?).
    repeat split; congruence.
  - destruct Hs1 as (_ & _ & _ & _ & Hobj).
    destruct Hc1 as [E1 | (N1 & o1 & M1 & E1)], Hc2 as [E2 | (N2 & o2 & M2 & E2)].
    + left. congruence.
    + right. split; [congruence |]. exists o2. split; [| exact E2].
      rewrite <- M2, Hobj. symmetry. apply mergeObjects_frame; assumption.
    + right. split; [exact N1 |]. exists o1. split; [exact M1 | congruence].
    + congruence.
Qed.

Lemma keeps_draw (d : DrawCall) : keeps drawFrame (draw d).
Proof.
  intros w. unfold draw, modify, setCanvas. simpl.
  split; try reflexivity. simpl.
  intros bt. destruct (batchHeap w !! bt) as [b |]; constructor.
  split; [repeat split | left; reflexivity].
Qed.

Lemma keeps_drawBatch (bt : positive) : keeps drawFrame (drawBatch bt).
Proof.
  intros w. unfold drawBatch, bind, derefBatch.
  destruct (batchHeap w !! bt) as [b |] eqn:Hb; [| reflexivity].
  destruct (meshType b) as [mt |].
  - destruct (batchObject b) as [o |] eqn:Hc; simpl.
    + apply keeps_draw.
    + unfold lift. destruct (mergeObjects false w (objects b)) as [o | msg] eqn:Hm;
        simpl; [| reflexivity].
      split; try reflexivity. simpl.
      intros bt'. destruct (decide (bt = bt')) as [<- |].
      * rewrite lookup_insert_eq, Hb. constructor.
        split; [repeat split |]. right. split; [exact Hc |]. exists o. auto.
      * rewrite lookup_insert_ne by assumption.
        destruct (batchHeap w !! bt') as [b' |]; constructor.
        split; [repeat split | left; reflexivity].
  - apply (keeps_forEach drawFrame). intros x. apply keeps_draw.
Qed.

Lemma keeps_DrawTo : keeps drawFrame DrawTo.
Proof.
  intros w. unfold DrawTo, bind, get.
  apply (keeps_forEach drawFrame). apply keeps_drawBatch.
Qed.

Lemma drawFrame_members (w w' : World) (bt : positive) :
  drawFrame w w' → members w' bt = members w bt.
Proof.
  intros [_ _ _ Hh]. unfold members.
  destruct (Hh bt) as [b b' [(_ & _ & _ & _ & E) _] |]; simpl; congruence.
Qed.

(** [DrawTo] keeps the invariant. *)
Lemma DrawTo_invariant (w : World) :
  batcherInvariant w → batcherInvariant (snd (DrawTo w)).
Proof.
  pose proof (keeps_DrawTo w) as Hf.
  apply batcherInvariant_members; [apply Hf |].
  intros bt. apply drawFrame_members, Hf.
Qed.

(** C9: [DrawTo] leaves the list of batches, the index, the client's memory
    and every field of every batch but the cache as they are, whether it
    returns or panics; a cache is either as it was or was nil and now holds
    the unchecked merge of the members of its batch. *)
Theorem DrawTo_keeps_membership (w : World) :
  let w' := snd (DrawTo w) in
  batches (batcher w') = batches (batcher w) ∧
  batchByObj (batcher w') = batchByObj (batcher w) ∧
  objs w' = objs w ∧
  texArrays w' = texArrays w ∧
  (∀ bt, members w' bt = members w bt) ∧
  (∀ bt, batchHeap w' !! bt = None ↔ batchHeap w !! bt = None) ∧
  (∀ bt b, batchHeap w !! bt = Some b →
     ∃ b', batchHeap w' !! bt = Some b' ∧ sameBatch b b' ∧
       (batchObject b' = batchObject b ∨
        (batchObject b = None ∧
         ∃ o, mergeObjects false w (objects b) = Ret o ∧ batchObject b' = Some o))).
Proof.
  destruct (keeps_DrawTo w) as [Ho Ht Hb Hh]. simpl.
  split; [congruence |]. split; [congruence |].
  split; [assumption |]. split; [assumption |].
  split; [| split].
  - intros bt. apply drawFrame_members. split; assumption.
  - intros bt. destruct (Hh bt); split; congruence.
  - intros bt b Hbt. specialize (Hh bt). rewrite Hbt in Hh.
    inversion Hh as [? b' [Hs Hc] |]; subst. exists b'. auto.
Qed.

Lemma forEach_draw (l : list positive) (w : World) :
  forEach l (λ obj, draw (DrawObject obj)) w
  = (Ret tt, setCanvas (canvas w ++ (DrawObject <$> l)) w).
Proof.
  revert w. induction l as [| x l IH]; intros w; simpl.
  - unfold ret, setCanvas. rewrite app_nil_r. destruct w; reflexivity.
  - unfold bind, draw, modify. rewrite IH. unfold setCanvas. simpl.
    rewrite <- app_assoc. reflexivity.
Qed.

Lemma drawsOf_frame (w w' : World) (bt : positive) :
  drawFrame w w' → drawsOf w' bt = drawsOf w bt.
Proof.
  intros [Ho Ht _ Hh]. unfold drawsOf.
  destruct (Hh bt) as [b b' [(_ & _ & _ & Hmt & Hobj) Hc] |]; [| reflexivity].
  rewrite Hmt, Hobj. destruct (meshType b); [| reflexivity].
  rewrite (mergeObjects_frame false w w') by assumption.
  destruct Hc as [-> | (-> & o & -> & ->)]; reflexivity.
Qed.

Lemma drawable_frame (w w' : World) (bt : positive) :
  drawFrame w w' → drawable w' bt ↔ drawable w bt.
Proof.
  intros [Ho Ht _ Hh]. specialize (Hh bt). unfold drawable.
  destruct Hh as [b b' [(_ & _ & _ & Hmt & Hobj) Hc] |].
  - split; intros (b0 & Hb & Hm); injection Hb as <-; eexists;
      (split; [reflexivity |]); intros Hty Hnil.
    + destruct Hc as [E | (_ & o & Hmerge & _)]; [| eauto].
      rewrite <- (mergeObjects_frame false w w'), <- Hobj by assumption.
      apply Hm; congruence.
    + rewrite Hobj, (mergeObjects_frame false w w') by assumption.
      destruct Hc as [E | (_ & o & _ & E)]; [| congruence].
      apply Hm; congruence.
  - split; intros (b0 & Hb & _); discriminate.
Qed.

Lemma drawBatch_draws (w : World) (bt : positive) :
  drawable w bt →
  fst (drawBatch bt w) = Ret tt ∧
  canvas (snd (drawBatch bt w)) = canvas w ++ drawsOf w bt.
Proof.
  intros (b & Hb & Hm). unfold drawBatch, drawsOf, bind, derefBatch. rewrite Hb.
  destruct (meshType b) as [mt |].
  - destruct (batchObject b) as [o |]; simpl.
    + split; reflexivity.
    + destruct Hm as [o Ho]; [eauto | reflexivity |].
      unfold lift. rewrite Ho. simpl. split; reflexivity.
  - rewrite forEach_draw. split; reflexivity.
Qed.

Lemma drawBatch_returns (w : World) (bt : positive) :
  fst (drawBatch bt w) = Ret tt → drawable w bt.
Proof.
  unfold drawBatch, bind, derefBatch, drawable.
  destruct (batchHeap w !! bt) as [b |] eqn:Hb; [| discriminate].
  intros H. exists b. split; [reflexivity |]. intros [mt Hmt] Hc.
  rewrite Hmt, Hc in H. unfold lift in H.
  destruct (mergeObjects false w (objects b)) as [o | msg]; [eauto | discriminate].
Qed.

Lemma forEach_drawBatch (l : list positive) (w : World) :
  Forall (drawable w) l →
  fst (forEach l drawBatch w) = Ret tt ∧
  canvas (snd (forEach l drawBatch w)) = canvas w ++ concat (drawsOf w <$> l).
Proof.
  revert w. induction l as [| bt l IH]; intros w Hall; simpl.
  - rewrite app_nil_r. split; reflexivity.
  - apply Forall_cons in Hall as [Hbt Hl].
    destruct (drawBatch_draws w bt Hbt) as [Hr Hc].
    pose proof (keeps_drawBatch bt w) as Hf.
    unfold bind. destruct (drawBatch bt w) as [[[] | msg] w1]; simpl in *;
      [| discriminate].
    destruct (IH w1) as [Hr1 Hc1].
    { eapply Forall_impl; [exact Hl |]. intros x Hx.
      apply (drawable_frame w w1 x Hf). exact Hx. }
    split; [exact Hr1 |]. rewrite Hc1, Hc, <- app_assoc. f_equal. f_equal.
    f_equal. apply list_fmap_ext. intros _ x _. apply drawsOf_frame, Hf.
Qed.

(** Whenever the batches of the batcher can be drawn, [DrawTo] returns and
    has issued, batch after batch, the calls of [drawsOf]. *)
Lemma DrawTo_draws (w : World) :
  Forall (drawable w) (batches (batcher w)) →
  fst (DrawTo w) = Ret tt ∧
  canvas (snd (DrawTo w)) = canvas w ++ concat (drawsOf w <$> batches (batcher w)).
Proof. intros H. unfold DrawTo, bind, get. apply forEach_drawBatch, H. Qed.

(** [DrawTo] returns exactly when every batch can be drawn. *)
Lemma DrawTo_returns_iff (w : World) :
  fst (DrawTo w) = Ret tt ↔ Forall (drawable w) (batches (batcher w)).
Proof.
  split; [| apply DrawTo_draws].
  unfold DrawTo, bind, get. generalize (batches (batcher w)) as l.
  intros l. revert w. induction l as [| bt l IH]; intros w H; [constructor |].
  simpl in H. unfold bind in H.
  pose proof (drawBatch_returns w bt) as Hd.
  pose proof (keeps_drawBatch bt w) as Hf.
  destruct (drawBatch bt w) as [[[] | msg] w1]; simpl in *; [| discriminate].
  constructor; [apply Hd; reflexivity |].
  eapply Forall_impl; [exact (IH w1 H) |]. intros x Hx.
  apply (drawable_frame w w1 x Hf). exact Hx.
Qed.

(** C5: a batch with a mesh type whose first member has no mesh: the merge
    reaches the mesh of object 16 with no batch mesh to append to, and
    [DrawTo] panics without a single call of [Draw]. *)
Theorem DrawTo_panics_in_merge :
  batches (batcher batcherOf11and16) = [1%positive] ∧
  members batcherOf11and16 1%positive = [11%positive; 16%positive] ∧
  (meshType <$> batchHeap batcherOf11and16 !! 1%positive)
    = Some (Some (MeshType.newMeshType oneVertex)) ∧
  isDirty batcherOf11and16 1%positive = true ∧
  mergeObjects false batcherOf11and16 [11%positive; 16%positive] = Panic nilDeref ∧
  fst (DrawTo batcherOf11and16) = Panic nilDeref ∧
  canvas (snd (DrawTo batcherOf11and16)) = [].
Proof. repeat split; vm_compute; reflexivity. Qed.

(** ** The texture type of a new batch *)

#[local] Instance textureWrites_refl obj : Reflexive (textureWrites obj).
Proof. intros w. split; reflexivity. Qed.

#[local] Instance textureWrites_trans obj : Transitive (textureWrites obj).
Proof.
  intros w1 w2 w3 [Ho1 Hh1 Hb1 Ha1] [Ho2 Hh2 Hb2 Ha2].
  split; try congruence.
  intros a Ha. rewrite Ha2, Ha1; [reflexivity | exact Ha |].
  rewrite Ho1. exact Ha.
Qed.

Lemma keeps_setTexture (obj : positive) (i : nat) (t : TextureRef) :
  keeps (textureWrites obj) (setTexture obj i t).
Proof.
  intros w. unfold setTexture, derefObject.
  destruct (objs w !! obj) as [o |] eqn:Ho; [| reflexivity].
  destruct (decide _); [| reflexivity].
  split; try reflexivity. simpl.
  intros a Ha. rewrite Ho in Ha. simpl in Ha.
  apply lookup_insert_ne. congruence.
Qed.

Lemma keeps_setTextures (obj : positive) (writes : list (nat * TextureRef)) :
  keeps (textureWrites obj) (setTextures obj writes).
Proof.
  apply (keeps_forEach (textureWrites obj)). intros p. apply keeps_setTexture.
Qed.

Lemma matches_agree (w w' : World) (bt probe : positive) :
  objs w' = objs w → batchHeap w' = batchHeap w →
  (∀ p, objs w !! probe = Some p →
     readSlice w' (Textures p) = readSlice w (Textures p)) →
  (∀ b, batchHeap w !! bt = Some b →
     readSlice w' (textureType b) = readSlice w (textureType b)) →
  matches w' bt probe = matches w bt probe.
Proof.
  intros Ho Hh Hp Hb. unfold matches, derefObject. rewrite Ho, Hh.
  destruct (objs w !! probe) as [p |]; [| reflexivity].
  destruct (batchHeap w !! bt) as [b |]; [| reflexivity].
  rewrite (Hp p eq_refl), (Hb b eq_refl). reflexivity.
Qed.

Lemma newBatch_world (w : World) (obj : positive) (o : Object)
    (mt : option MeshType.meshType) :
  objs w !! obj = Some o → batchMeshType (Meshes o) = Ret mt →
  newBatch obj w =
    (Ret tt,
     {| objs := objs w;
        texArrays := <[fresh (dom (texArrays w)) := readSlice w (Textures o)]>
                       (texArrays w);
        batchHeap :=
          <[fresh (dom (batchHeap w)) :=
              {| batchObject := None;
                 stateType := ObjectState o;
                 shaderType := Shader o;
                 textureType := fresh (dom (texArrays w));
                 meshType := mt;
                 objects := [obj] |}]> (batchHeap w);
        batcher := {| batches := batches (batcher w) ++ [fresh (dom (batchHeap w))];
                      batchByObj := <[obj := fresh (dom (batchHeap w))]>
                                      (batchByObj (batcher w)) |};
        canvas := canvas w |}).
Proof. intros Ho Hmt. unfold newBatch, derefObject. rewrite Ho, Hmt. reflexivity. Qed.

(** A panic of [newBatch] is raised before anything is written. *)
Lemma newBatch_panic (w : World) (obj : positive) (msg : string) :
  fst (newBatch obj w) = Panic msg → snd (newBatch obj w) = w.
Proof.
  unfold newBatch. destruct (derefObject w obj) as [o | ?]; [| reflexivity].
  destruct (batchMeshType (Meshes o)); [discriminate | reflexivity].
Qed.

(** [newBatch] returns for a valid object exactly when the loop over its
    meshes meets no nil mesh. *)
Lemma newBatch_returns (w : World) (obj : positive) (o : Object) :
  objs w !! obj = Some o →
  fst (newBatch obj w) = Ret tt ↔ ∃ mt, batchMeshType (Meshes o) = Ret mt.
Proof.
  intros Ho. unfold newBatch, derefObject. rewrite Ho.
  destruct (batchMeshType (Meshes o)) as [mt | msg]; simpl.
  - split; eauto.
  - split; [discriminate | intros [mt H]; discriminate].
Qed.

(** C10: when [newBatch] returns for [obj], the texture type of the batch
    it has made is an array of its own, filled with the textures [obj] has
    at that moment.  Whatever the client then writes into the elements of
    [obj.Textures], the batch and the contents of its texture type stay as
    they were, and so does the answer of [matches] for every object whose
    own texture slice is not the one written to. *)
Theorem newBatch_textureType_is_a_copy
    (w : World) (obj : positive) (o : Object) (ts : list TextureRef)
    (writes : list (nat * TextureRef)) :
  objs w !! obj = Some o →
  texArrays w !! Textures o = Some ts →
  fst (newBatch obj w) = Ret tt →
  let bt := fresh (dom (batchHeap w)) in
  let w1 := snd (newBatch obj w) in
  let w2 := snd (setTextures obj writes w1) in
  last (batches (batcher w1)) = Some bt ∧
  ∃ b, batchHeap w1 !! bt = Some b ∧
       textureType b ≠ Textures o ∧
       readSlice w1 (textureType b) = ts ∧
       batchHeap w2 !! bt = Some b ∧
       readSlice w2 (textureType b) = ts ∧
       ∀ probe p, objs w !! probe = Some p → Textures p ≠ Textures o →
         matches w2 bt probe = matches w1 bt probe.
Proof.
  intros Ho Hts Hr bt w1 w2.
  apply (newBatch_returns w obj o Ho) in Hr as [mt Hmt].
  assert (Hfresh : fresh (dom (texArrays w)) ≠ Textures o).
  { intros E. apply (is_fresh (dom (texArrays w))). rewrite E.
    apply elem_of_dom. eauto. }
  pose proof (keeps_setTextures obj writes w1) as [Ho2 Hh2 Hb2 Ha2].
  fold w2 in Ho2, Hh2, Hb2, Ha2.
  assert (Hw1 := newBatch_world w obj o mt Ho Hmt). fold bt in Hw1.
  subst w1. rewrite Hw1 in *. simpl in *.
  split; [apply last_snoc |].
  eexists. split; [apply lookup_insert_eq |]. simpl.
  assert (Hkey : texArrays w2 !! fresh (dom (texArrays w))
                 = Some (readSlice w (Textures o))).
  { rewrite Ha2; [apply lookup_insert_eq |]. rewrite Ho. simpl. congruence. }
  split; [exact Hfresh |].
  split; [unfold readSlice; simpl; rewrite lookup_insert_eq, Hts; reflexivity |].
  split; [rewrite Hh2; apply lookup_insert_eq |].
  split; [unfold readSlice at 1; rewrite Hkey; unfold readSlice; rewrite Hts;
          reflexivity |].
  intros probe p Hp Hne.
  apply matches_agree; [exact Ho2 | exact Hh2 | |].
  - simpl. intros p' Hp'. assert (p' = p) by congruence. subst p'.
    unfold readSlice. rewrite Ha2; [reflexivity |].
    rewrite Ho. simpl. congruence.
  - simpl. intros b Hb. rewrite lookup_insert_eq in Hb. injection Hb as <-. simpl.
    unfold readSlice at 1. rewrite Hkey. unfold readSlice. simpl.
    rewrite lookup_insert_eq. reflexivity.
Qed.

(** The batch made for object 14 keeps texture 9 as its texture type after
    the client has put texture 5 in its place. *)
Lemma newBatch_textureType_is_a_copy_witness :
  let w := emptyWorld sceneObjects sceneTextures in
  let w1 := snd (newBatch 14%positive w) in
  let w2 := snd (setTextures 14%positive [(0%nat, Some 5%positive)] w1) in
  readSlice w2 22%positive = [Some 5%positive] ∧
  ∃ b, batchHeap w1 !! 1%positive = Some b ∧
       textureType b ≠ 22%positive ∧
       readSlice w1 (textureType b) = [Some 9%positive] ∧
       batchHeap w2 !! 1%positive = Some b ∧
       readSlice w2 (textureType b) = [Some 9%positive] ∧
       ∀ probe p, objs w !! probe = Some p → Textures p ≠ 22%positive →
         matches w2 1%positive probe = matches w1 1%positive probe.
Proof.
  split; [vm_compute; reflexivity |].
  apply (newBatch_textureType_is_a_copy
           (emptyWorld sceneObjects sceneTextures) 14%positive
           (mkObject ditheredState (Some 7%positive) 22%positive [])
           [Some 9%positive] [(0%nat, Some 5%positive)]);
    vm_compute; reflexivity.
Defined.

(** C10, as the claim is worded: the batch made for object 14 matches
    object 14.  After the client has put texture 5 in the place of texture 9
    in the slice of object 14, the texture type of the batch is what it
    was, and the batch does not match object 14 any more: [matches]
    compares the textures the object has now. *)
Lemma newBatch_textureType_counterexample :
  let w := emptyWorld sceneObjects sceneTextures in
  let w1 := snd (newBatch 14%positive w) in
  let w2 := snd (setTextures 14%positive [(0%nat, Some 5%positive)] w1) in
  fst (newBatch 14%positive w) = Ret tt ∧
  fst (setTextures 14%positive [(0%nat, Some 5%positive)] w1) = Ret tt ∧
  (textureType <$> batchHeap w1 !! 1%positive) = Some 23%positive ∧
  readSlice w1 23%positive = [Some 9%positive] ∧
  readSlice w2 23%positive = [Some 9%positive] ∧
  matches w1 1%positive 14%positive = Ret true ∧
  matches w2 1%positive 14%positive = Ret false ∧
  ¬ (∀ probe, matches w2 1%positive probe = matches w1 1%positive probe).
Proof.
  repeat split; try (vm_compute; reflexivity).
  intros H. specialize (H 14%positive). vm_compute in H. discriminate.
Qed.

(** * Further properties *)

(** ** The range loops of [removeFromBatch] *)

Lemma filter_absent (x : positive) (l : list positive) :
  x ∉ l → filter (λ y, y ≠ x) l = l.
Proof.
  induction l as [| y l IH]; intros Hx; [reflexivity |].
  apply not_elem_of_cons in Hx as [Hne Hx].
  rewrite filter_cons_True by congruence. rewrite IH by assumption. reflexivity.
Qed.

Lemma cut_filter (l : list positive) (k : nat) (x : positive) :
  NoDup l → l !! k = Some x →
  take k l ++ drop (S k) l = filter (λ y, y ≠ x) l.
Proof.
  intros Hnd Hk. pose proof (take_drop_middle l k x Hk) as Hl.
  rewrite <- Hl in Hnd. apply NoDup_app in Hnd as (_ & Hx1 & Hnd).
  apply NoDup_cons in Hnd as [Hx2 _].
  rewrite <- Hl at 3.
  rewrite filter_app, filter_cons_False by (intros H; apply H; reflexivity).
  rewrite !filter_absent; [reflexivity | exact Hx2 |].
  intros Hin. apply (Hx1 x Hin). left.
Qed.

(** X1: on a slice without duplicates, the loop
    [for i, e := range s { if e != x { continue }; s = append(s[:i], s[i+1:]...) }]
    returns and leaves the slice without [x], the other elements in their
    order; a slice that does not hold [x] is left as it is. *)
Theorem rangeLoop_NoDup (x : positive) (s : list positive) :
  NoDup s → deleteInRange x s = (Ret tt, filter (λ y, y ≠ x) s).
Proof.
  intros Hnd. destruct (decide (x ∈ s)) as [Hin | Hout].
  - apply list_elem_of_lookup_1 in Hin as [k Hk].
    rewrite (deleteInRange_NoDup x s k Hnd Hk). f_equal. apply cut_filter; assumption.
  - rewrite deleteInRange_absent, filter_absent by assumption. reflexivity.
Qed.

Lemma rangeLoop_NoDup_witness :
  deleteInRange 3%positive [7%positive; 3%positive; 5%positive]
  = (Ret tt, [7%positive; 5%positive]).
Proof.
  apply (rangeLoop_NoDup 3%positive [7%positive; 3%positive; 5%positive]).
  apply (bool_decide_unpack (NoDup [7%positive; 3%positive; 5%positive])).
  vm_compute. exact I.
Defined.

(** Once the slice is shorter than its backing array, whose last element is
    [x], the loop cannot end: it reaches that element and panics. *)
Lemma rangeDelete_short (x : positive) (todo i : nat) (arr : list positive) (len : nat) :
  (i + todo = length arr)%nat → (1 ≤ todo)%nat → (len < length arr)%nat →
  arr !! (length arr - 1)%nat = Some x →
  fst (rangeDelete x todo i arr len) = Panic sliceBounds.
Proof.
  revert i arr len. induction todo as [| todo IH]; intros i arr len Hn Htodo Hlen Hlast;
    [lia |]. simpl.
  destruct (arr !! i) as [e |] eqn:He; [| apply lookup_ge_None in He; lia].
  destruct (decide (x = e)) as [<- | Hne].
  - destruct (decide (i < len)%nat) as [Hi |]; [| reflexivity].
    assert (Hl : length (take i arr ++ take (len - S i) (drop (S i) arr)
                         ++ drop (len - 1) arr) = length arr).
    { rewrite !length_app, !length_take, !length_drop. lia. }
    apply IH; rewrite ?Hl; try lia.
    rewrite app_assoc, lookup_app_r
      by (rewrite length_app, !length_take, length_drop; lia).
    rewrite length_app, !length_take, length_drop, lookup_drop.
    rewrite <- Hlast. f_equal. lia.
  - assert (i ≠ length arr - 1)%nat by congruence.
    apply IH; [lia | lia | assumption | assumption].
Qed.

(** X2: on a slice that holds [x] as its last element and at an earlier
    place, the loop panics: after the first removal the slice is shorter
    than the range the loop still runs over, the stale last element of the
    backing array is [x] again, and [s[i+1:]] is out of bounds there. *)
Theorem rangeLoop_duplicate_panics (x : positive) (s : list positive) (k : nat) :
  (S k < length s)%nat → s !! k = Some x → last s = Some x →
  fst (deleteInRange x s) = Panic sliceBounds.
Proof.
  intros Hk Hx Hlast. rewrite last_lookup in Hlast.
  replace (pred (length s)) with (length s - 1)%nat in Hlast by lia.
  unfold deleteInRange.
  assert (H : ∀ todo i, (i ≤ k)%nat → (i + todo = length s)%nat →
            fst (rangeDelete x todo i s (length s)) = Panic sliceBounds).
  { induction todo as [| todo IH]; intros i Hik Hn; [lia |]. simpl.
    destruct (s !! i) as [e |] eqn:He; [| apply lookup_ge_None in He; lia].
    destruct (decide (x = e)) as [<- | Hne].
    - destruct (decide (i < length s)%nat); [| lia].
      assert (Hl : length (take i s ++ take (length s - S i) (drop (S i) s)
                           ++ drop (length s - 1) s) = length s).
      { rewrite !length_app, !length_take, !length_drop. lia. }
      apply rangeDelete_short; rewrite ?Hl; try lia.
      rewrite app_assoc, lookup_app_r
        by (rewrite length_app, !length_take, length_drop; lia).
      rewrite length_app, !length_take, length_drop, lookup_drop.
      rewrite <- Hlast. f_equal. lia.
    - apply IH; [| lia]. destruct (decide (i = k)) as [-> |]; [congruence | lia]. }
  apply (H (length s) 0%nat); lia.
Qed.

Lemma rangeLoop_duplicate_panics_witness :
  fst (deleteInRange 7%positive [7%positive; 3%positive; 7%positive]) = Panic sliceBounds.
Proof.
  apply (rangeLoop_duplicate_panics 7%positive [7%positive; 3%positive; 7%positive] 0);
    [simpl; lia | reflexivity | reflexivity].
Defined.

(** ** [matches], [findBatch] and [newBatch] *)

Lemma sameTextures_decides (i : nat) (bts ots : list TextureRef) :
  length (drop i ots) = length bts →
  sameTextures i bts ots = Ret (bool_decide (drop i ots = bts)).
Proof.
  revert i. induction bts as [| tex bts IH]; intros i Hlen; simpl.
  - destruct (drop i ots); [reflexivity | discriminate].
  - destruct (ots !! i) as [t |] eqn:Ht.
    + rewrite (drop_S _ _ _ Ht) in *. simpl in Hlen.
      destruct (decide (t = tex)) as [-> | Hne].
      * rewrite IH by lia. f_equal. apply bool_decide_ext. split; congruence.
      * rewrite bool_decide_eq_false_2; [reflexivity | congruence].
    + apply lookup_ge_None in Ht. rewrite drop_ge in Hlen by lia. discriminate.
Qed.

Lemma matches_key (w : World) (bt obj : positive) (b : batch) (o : Object) :
  batchHeap w !! bt = Some b → objs w !! obj = Some o →
  (sameKey w b o ∧ matches w bt obj = sameMeshType (meshType b) (Meshes o)) ∨
  (¬ sameKey w b o ∧ matches w bt obj = Ret false).
Proof.
  intros Hb Ho. unfold matches, derefObject, sameKey. rewrite Ho, Hb.
  destruct (decide (Shader o = shaderType b)) as [Hs | Hs].
  2: { right. rewrite bool_decide_eq_false_2 by assumption. simpl. tauto. }
  rewrite bool_decide_eq_true_2 by assumption. simpl.
  destruct (Nat.eqb (length (readSlice w (Textures o)))
              (length (readSlice w (textureType b)))) eqn:Hlen; simpl.
  2: { right. apply Nat.eqb_neq in Hlen. split; [| reflexivity].
       intros (_ & E & _). rewrite E in Hlen. congruence. }
  apply Nat.eqb_eq in Hlen. rewrite sameTextures_decides by (rewrite drop_0; exact Hlen).
  rewrite drop_0.
  destruct (decide (readSlice w (Textures o) = readSlice w (textureType b))) as [Ht | Ht].
  2: { right. rewrite bool_decide_eq_false_2 by assumption. tauto. }
  rewrite bool_decide_eq_true_2 by assumption.
  destruct (decide (ObjectState o = stateType b)) as [Hst | Hst].
  2: { right. rewrite bool_decide_eq_false_2 by assumption. simpl. tauto. }
  rewrite bool_decide_eq_true_2 by assumption. simpl. left. tauto.
Qed.

Lemma sameMeshType_true (mt : option MeshType.meshType) (ms : list (option Mesh)) :
  sameMeshType mt ms = Ret true ↔
  ms = [] ∨ ∃ t, mt = Some t ∧ Forall (ofType t) ms.
Proof.
  destruct mt as [t |].
  - induction ms as [| [m |] ms IH]; simpl.
    + split; [auto | reflexivity].
    + destruct (MeshType.equals (MeshType.newMeshType m) t) eqn:E.
      * split; [discriminate |]. intros [? | (t' & [= <-] & H)]; [discriminate |].
        apply Forall_cons in H as [(m0 & [= <-] & H) _]. congruence.
      * rewrite IH. split.
        -- intros [-> | (t' & [= <-] & H)]; right; exists t; split; auto;
             constructor; auto; exists m; auto.
        -- intros [? | (t' & [= <-] & H)]; [discriminate |].
           apply Forall_cons in H as [_ H]. right. eauto.
    + split; [discriminate |]. intros [? | (t' & _ & H)]; [discriminate |].
      apply Forall_cons in H as [(m0 & ? & _) _]. discriminate.
  - destruct ms as [| [m |] ms]; simpl.
    + split; [auto | reflexivity].
    + split; [discriminate |]. intros [? | (t & ? & _)]; discriminate.
    + split; [discriminate |]. intros [? | (t & ? & _)]; discriminate.
Qed.

Lemma sameMeshType_panics (mt : option MeshType.meshType) (ms : list (option Mesh))
    (msg : string) :
  sameMeshType mt ms = Panic msg ↔
  msg = nilDeref ∧
  ((mt = None ∧ ms ≠ []) ∨
   ∃ t l1 l2, mt = Some t ∧ ms = l1 ++ None :: l2 ∧ Forall (ofType t) l1).
Proof.
  destruct mt as [t |].
  - induction ms as [| [m |] ms IH]; simpl.
    + split; [discriminate |].
      intros (_ & [[? _] | (t' & l1 & l2 & _ & E & _)]); [discriminate |].
      destruct l1; discriminate.
    + destruct (MeshType.equals (MeshType.newMeshType m) t) eqn:E.
      * split; [discriminate |].
        intros (_ & [[? _] | (t' & l1 & l2 & [= <-] & El & H)]); [discriminate |].
        destruct l1 as [| m' l1]; [discriminate |]. injection El as <- _.
        apply Forall_cons in H as [(m0 & [= <-] & H) _]. congruence.
      * rewrite IH. split.
        -- intros (-> & [[? _] | (t' & l1 & l2 & [= <-] & -> & H)]); [discriminate |].
           split; [reflexivity |]. right. exists t, (Some m :: l1), l2.
           split; [reflexivity |]. split; [reflexivity |].
           constructor; [exists m; auto | exact H].
        -- intros (-> & [[? _] | (t' & l1 & l2 & [= <-] & El & H)]); [discriminate |].
           destruct l1 as [| m' l1]; [discriminate |]. injection El as <- ->.
           apply Forall_cons in H as [_ H].
           split; [reflexivity |]. right. exists t, l1, l2. auto.
    + split.
      * intros [= <-]. split; [reflexivity |]. right. exists t, [], ms. auto.
      * intros (-> & _). reflexivity.
  - destruct ms as [| [m |] ms]; simpl.
    + split; [discriminate |].
      intros (_ & [[_ ?] | (t & _ & _ & ? & _)]); [congruence | discriminate].
    + split; [intros [= <-]; auto | intros (-> & _); reflexivity].
    + split; [intros [= <-]; auto | intros (-> & _); reflexivity].
Qed.

(** X3: for a valid batch and a valid object, [matches] answers true exactly
    when the shader is the same pointer, the texture lists are equal
    element by element, the states are equal, and the object has no mesh
    or the batch has a mesh type and every mesh of the object is not nil and
    of that type. *)
Theorem matches_true_iff (w : World) (bt obj : positive) (b : batch) (o : Object) :
  batchHeap w !! bt = Some b → objs w !! obj = Some o →
  matches w bt obj = Ret true ↔
  Shader o = shaderType b ∧
  readSlice w (Textures o) = readSlice w (textureType b) ∧
  ObjectState o = stateType b ∧
  (Meshes o = [] ∨
   ∃ t, meshType b = Some t ∧
        Forall (λ m, ∃ m0, m = Some m0 ∧
                           MeshType.equals (MeshType.newMeshType m0) t = None)
          (Meshes o)).
Proof.
  intros Hb Ho.
  destruct (matches_key w bt obj b o Hb Ho) as [[(Hs & Ht & Hst) ->] | [Hn ->]].
  - rewrite sameMeshType_true. unfold ofType. tauto.
  - split; [discriminate |]. intros (Hs & Ht & Hst & _). destruct Hn. split; auto.
Qed.

(** X4: for a valid batch and a valid object, [matches] panics exactly when
    shader, textures and state agree and the loop over the meshes of the
    object meets a nil dereference: the mesh type of the batch is nil and
    the object has a mesh, or the batch has a mesh type and the object has a
    nil mesh before which every mesh is not nil and of that type.  The
    panic is the nil dereference. *)
Theorem matches_panics_iff (w : World) (bt obj : positive) (b : batch) (o : Object)
    (msg : string) :
  batchHeap w !! bt = Some b → objs w !! obj = Some o →
  matches w bt obj = Panic msg ↔
  msg = nilDeref ∧
  Shader o = shaderType b ∧
  readSlice w (Textures o) = readSlice w (textureType b) ∧
  ObjectState o = stateType b ∧
  ((meshType b = None ∧ Meshes o ≠ []) ∨
   ∃ t l1 l2, meshType b = Some t ∧ Meshes o = l1 ++ None :: l2 ∧
              Forall (λ m, ∃ m0, m = Some m0 ∧
                                 MeshType.equals (MeshType.newMeshType m0) t = None)
                l1).
Proof.
  intros Hb Ho.
  destruct (matches_key w bt obj b o Hb Ho) as [[(Hs & Ht & Hst) ->] | [Hn ->]].
  - rewrite sameMeshType_panics. unfold ofType. tauto.
  - split; [discriminate |]. intros (_ & Hs & Ht & Hst & _). destruct Hn. split; auto.
Qed.

(** X5: [findBatch] returns the first batch of the list that matches, after
    all the batches before it have answered false; nil when all answer
    false; and it panics with the panic of the first batch that does not
    answer, the batches after it are not asked. *)
Theorem findBatch_first_match (w : World) (l : list positive) (obj : positive) :
  (∀ bt, findBatchIn w l obj = Ret (Some bt) ↔
         ∃ l1 l2, l = l1 ++ bt :: l2 ∧
                  Forall (λ c, matches w c obj = Ret false) l1 ∧
                  matches w bt obj = Ret true) ∧
  (findBatchIn w l obj = Ret None ↔ Forall (λ c, matches w c obj = Ret false) l) ∧
  (∀ msg, findBatchIn w l obj = Panic msg ↔
          ∃ l1 c l2, l = l1 ++ c :: l2 ∧
                     Forall (λ c, matches w c obj = Ret false) l1 ∧
                     matches w c obj = Panic msg).
Proof.
  induction l as [| c l (IH1 & IH2 & IH3)]; simpl.
  - split; [| split].
    + intros bt. split; [discriminate |]. intros (l1 & l2 & E & _).
      destruct l1; discriminate.
    + split; [constructor | reflexivity].
    + intros msg. split; [discriminate |]. intros (l1 & c & l2 & E & _).
      destruct l1; discriminate.
  - destruct (matches w c obj) as [[] | msg'] eqn:Hm.
    + split; [| split].
      * intros bt. split.
        -- intros [= <-]. exists [], l. split; [reflexivity |]. split; [constructor | exact Hm].
        -- intros (l1 & l2 & E & Hf & Ht). destruct l1 as [| c' l1].
           ++ injection E as -> ->. reflexivity.
           ++ injection E as -> ->. apply Forall_cons in Hf as [Hf _]. congruence.
      * split; [discriminate |]. intros Hf. apply Forall_cons in Hf as [Hf _]. congruence.
      * intros msg. split; [discriminate |]. intros (l1 & c' & l2 & E & Hf & Hp).
        destruct l1 as [| c'' l1]; injection E as -> ->; [congruence |].
        apply Forall_cons in Hf as [Hf _]. congruence.
    + split; [| split].
      * intros bt. rewrite IH1. split.
        -- intros (l1 & l2 & -> & Hf & Ht). exists (c :: l1), l2.
           split; [reflexivity |]. split; [constructor; assumption | exact Ht].
        -- intros (l1 & l2 & E & Hf & Ht). destruct l1 as [| c' l1].
           ++ injection E as -> ->. congruence.
           ++ injection E as -> ->. apply Forall_cons in Hf as [_ Hf]. eauto.
      * rewrite IH2. split; [intros H; constructor; assumption |].
        intros H. apply Forall_cons in H as [_ H]. exact H.
      * intros msg. rewrite IH3. split.
        -- intros (l1 & c' & l2 & -> & Hf & Hp). exists (c :: l1), c', l2.
           split; [reflexivity |]. split; [constructor; assumption | exact Hp].
        -- intros (l1 & c' & l2 & E & Hf & Hp). destruct l1 as [| c'' l1].
           ++ injection E as -> ->. congruence.
           ++ injection E as -> ->. apply Forall_cons in Hf as [_ Hf]. eauto 6.
    + split; [| split].
      * intros bt. split; [discriminate |]. intros (l1 & l2 & E & Hf & Ht).
        destruct l1 as [| c' l1]; injection E as -> ->; [congruence |].
        apply Forall_cons in Hf as [Hf _]. congruence.
      * split; [discriminate |]. intros Hf. apply Forall_cons in Hf as [Hf _]. congruence.
      * intros msg. split.
        -- intros [= <-]. exists [], c, l. split; [reflexivity |]. split; [constructor | exact Hm].
        -- intros (l1 & c' & l2 & E & Hf & Hp).
           destruct l1 as [| c'' l1]; injection E as -> ->; [congruence |].
           apply Forall_cons in Hf as [Hf _]. congruence.
Qed.

Lemma matches_true_iff_witness :
  let w := snd (NewBatcher sceneObjects sceneTextures [13%positive]) in
  let b := mkBatch None defaultState None 23%positive
             (Some (MeshType.newMeshType oneVertex)) [13%positive] in
  batchHeap w !! 1%positive = Some b ∧
  objs w !! 16%positive = Some (mkObject defaultState None 21%positive [Some oneVertex]) ∧
  matches w 1%positive 16%positive = Ret true.
Proof.
  split; [vm_compute; reflexivity |]. split; [vm_compute; reflexivity |].
  apply (matches_true_iff (snd (NewBatcher sceneObjects sceneTextures [13%positive]))
           1%positive 16%positive
           (mkBatch None defaultState None 23%positive
              (Some (MeshType.newMeshType oneVertex)) [13%positive])
           (mkObject defaultState None 21%positive [Some oneVertex]));
    [vm_compute; reflexivity | vm_compute; reflexivity |].
  split; [reflexivity |]. split; [vm_compute; reflexivity |]. split; [reflexivity |].
  right. exists (MeshType.newMeshType oneVertex). split; [reflexivity |].
  constructor; [| constructor]. exists oneVertex. split; [reflexivity |].
  vm_compute; reflexivity.
Defined.

Lemma matches_panics_iff_witness :
  let w := snd (perform (ClientWrite 16%positive
                           (mkObject defaultState None 21%positive
                              [Some oneVertex; None]))
                  (snd (NewBatcher sceneObjects sceneTextures [13%positive]))) in
  let b := mkBatch None defaultState None 23%positive
             (Some (MeshType.newMeshType oneVertex)) [13%positive] in
  batchHeap w !! 1%positive = Some b ∧
  objs w !! 16%positive
  = Some (mkObject defaultState None 21%positive [Some oneVertex; None]) ∧
  matches w 1%positive 16%positive = Panic nilDeref.
Proof.
  split; [vm_compute; reflexivity |]. split; [vm_compute; reflexivity |].
  apply (matches_panics_iff
           (snd (perform (ClientWrite 16%positive
                            (mkObject defaultState None 21%positive
                               [Some oneVertex; None]))
                   (snd (NewBatcher sceneObjects sceneTextures [13%positive]))))
           1%positive 16%positive
           (mkBatch None defaultState None 23%positive
              (Some (MeshType.newMeshType oneVertex)) [13%positive])
           (mkObject defaultState None 21%positive [Some oneVertex; None]) nilDeref);
    [vm_compute; reflexivity | vm_compute; reflexivity |].
  split; [reflexivity |]. split; [reflexivity |]. split; [vm_compute; reflexivity |].
  split; [reflexivity |].
  right. exists (MeshType.newMeshType oneVertex), [Some oneVertex], [].
  split; [reflexivity |]. split; [reflexivity |].
  constructor; [| constructor]. exists oneVertex. split; [reflexivity |].
  vm_compute; reflexivity.
Defined.









(** ** Soundness of the states of a batcher *)

Lemma members_allocated (w : World) (bt : positive) :
  members w bt ≠ [] → ∃ b, batchHeap w !! bt = Some b ∧ members w bt = objects b.
Proof.
  unfold members. destruct (batchHeap w !! bt) as [b |]; simpl; [eauto | congruence].
Qed.

Lemma sound_same_members (w w' : World) :
  batcher w' = batcher w →
  (∀ bt, members w' bt = members w bt) →
  (∀ x, is_Some (objs w !! x) → is_Some (objs w' !! x)) →
  sound w → sound w'.
Proof.
  intros Hb Hm Ho [H1 H2 H3 H4]. split; rewrite ?Hb.
  - exact H1.
  - intros bt. rewrite Hm. apply H2.
  - intros bt x Hl Hx. rewrite Hm in Hx. destruct (H3 bt x Hl Hx). auto.
  - intros x bt. rewrite Hm. apply H4.
Qed.

Lemma sound_untracked_absent (w : World) (x : positive) :
  sound w → batchByObj (batcher w) !! x = None → absent w x.
Proof.
  intros Hs Hx bt Hl Hin. destruct (sound_member w Hs bt x Hl Hin). congruence.
Qed.

Lemma sound_index_allocated (w : World) (x bt : positive) :
  sound w → batchByObj (batcher w) !! x = Some bt → is_Some (batchHeap w !! bt).
Proof.
  intros Hs Hx.
  assert (Hne : members w bt ≠ []).
  { destruct (sound_index w Hs x bt Hx) as [[_ Hin] | [_ E]].
    - intros E. rewrite E in Hin. inversion Hin.
    - rewrite E. discriminate. }
  destruct (members_allocated w bt Hne) as (b & Hb & _). eauto.
Qed.

(** Clearing a cache changes no member list. *)
Lemma members_clear (w : World) (bt : positive) (b : batch) (bt' : positive) :
  batchHeap w !! bt = Some b →
  members (setBatchHeap (<[bt := setBatchObject None b]> (batchHeap w)) w) bt'
  = members w bt'.
Proof.
  intros Hb. unfold members. simpl. destruct (decide (bt = bt')) as [<- |].
  - rewrite lookup_insert_eq, Hb. reflexivity.
  - rewrite lookup_insert_ne by assumption. reflexivity.
Qed.

Lemma clearBatch_sound (w : World) (bt : positive) :
  sound w → sound (snd (clearBatch bt w)).
Proof.
  intros Hs. unfold clearBatch, bind, derefBatch.
  destruct (batchHeap w !! bt) as [b |] eqn:Hb; [| exact Hs]. simpl.
  apply (sound_same_members w); [reflexivity | | auto | exact Hs].
  intros bt'. apply members_clear, Hb.
Qed.

(** The object joins a batch of the batcher that does not hold it. *)
Lemma addToBatch_sound (w : World) (x bt : positive) :
  sound w → absent w x → is_Some (objs w !! x) → bt ∈ batches (batcher w) →
  fst (addToBatch x bt w) = Ret tt ∧ sound (snd (addToBatch x bt w)) ∧
  (batchByObj (batcher (snd (addToBatch x bt w))) !! x = Some bt ∧
   bt ∈ batches (batcher (snd (addToBatch x bt w)))) ∧
  (∀ y, y ≠ x → batchByObj (batcher (snd (addToBatch x bt w))) !! y
                 = batchByObj (batcher w) !! y) ∧
  batches (batcher (snd (addToBatch x bt w))) = batches (batcher w).
Proof.
  intros Hs Habs Hv Hl. pose proof Hs as [H1 H2 H3 H4].
  destruct (H2 bt Hl) as [Hne Hnd].
  destruct (members_allocated w bt Hne) as (b & Hb & Hmb).
  rewrite (addToBatch_world w x bt b Hb). simpl.
  set (w' := {| objs := objs w; texArrays := texArrays w; batchHeap := _;
                batcher := _; canvas := canvas w |}).
  assert (Hm : ∀ bt', members w' bt'
                = if decide (bt = bt') then members w bt ++ [x] else members w bt').
  { intros bt'. unfold members. simpl. destruct (decide (bt = bt')) as [<- |].
    - rewrite lookup_insert_eq, Hb. reflexivity.
    - rewrite lookup_insert_ne by assumption. reflexivity. }
  split; [reflexivity |]. split; [| split; [| split]].
  - split; simpl.
    + exact H1.
    + intros bt' Hl'. rewrite Hm. destruct (decide (bt = bt')) as [<- |]; [| auto].
      split; [intros E; apply app_eq_nil in E as [_ E]; discriminate |].
      apply NoDup_app. split; [exact Hnd |]. split; [| apply NoDup_singleton].
      intros y Hy Hy'. apply list_elem_of_singleton in Hy' as ->. exact (Habs bt Hl Hy).
    + intros bt' y Hl' Hy. rewrite Hm in Hy.
      destruct (decide (x = y)) as [<- | Hxy].
      * destruct (decide (bt = bt')) as [<- |].
        -- split; [apply lookup_insert_eq | exact Hv].
        -- destruct (Habs bt' Hl' Hy).
      * rewrite lookup_insert_ne by assumption. apply (H3 bt' y Hl').
        destruct (decide (bt = bt')) as [<- |]; [| exact Hy].
        apply elem_of_app in Hy as [Hy | Hy]; [exact Hy |].
        apply list_elem_of_singleton in Hy. congruence.
    + intros y bt' Hy. rewrite Hm.
      destruct (decide (x = y)) as [<- | Hxy].
      * rewrite lookup_insert_eq in Hy. injection Hy as <-. left.
        split; [exact Hl |]. rewrite decide_True by reflexivity.
        apply elem_of_app. right. left.
      * rewrite lookup_insert_ne in Hy by assumption.
        destruct (H4 y bt' Hy) as [[Hl' Hin] | [Hnl E]].
        -- left. split; [exact Hl' |].
           destruct (decide (bt = bt')) as [<- |]; [| exact Hin].
           apply elem_of_app. left. exact Hin.
        -- right. split; [exact Hnl |].
           rewrite decide_False by (intros <-; exact (Hnl Hl)). exact E.
  - split; [apply lookup_insert_eq | exact Hl].
  - intros y Hy. simpl. apply lookup_insert_ne. congruence.
  - reflexivity.
Qed.

(** When [newBatch] returns, the object has a batch of its own. *)
Lemma newBatch_sound (w : World) (x : positive) :
  sound w → absent w x → fst (newBatch x w) = Ret tt →
  sound (snd (newBatch x w)) ∧
  (∃ nb, batchByObj (batcher (snd (newBatch x w))) !! x = Some nb ∧
         nb ∈ batches (batcher (snd (newBatch x w)))) ∧
  (∀ y, y ≠ x → batchByObj (batcher (snd (newBatch x w))) !! y
                 = batchByObj (batcher w) !! y) ∧
  (∀ c, c ∈ batches (batcher w) → c ∈ batches (batcher (snd (newBatch x w)))).
Proof.
  intros Hs Habs Hr. pose proof Hs as [H1 H2 H3 H4].
  destruct (objs w !! x) as [o |] eqn:Ho;
    [| unfold newBatch, derefObject in Hr; rewrite Ho in Hr; discriminate].
  apply (newBatch_returns w x o Ho) in Hr as [mt Hmt].
  rewrite (newBatch_world w x o mt Ho Hmt). simpl.
  set (nb := fresh (dom (batchHeap w))).
  set (w' := {| objs := objs w; texArrays := _; batchHeap := _; batcher := _;
                canvas := canvas w |}).
  assert (Hnb : batchHeap w !! nb = None) by apply not_elem_of_dom, is_fresh.
  assert (Hmnb : members w nb = []) by (unfold members; rewrite Hnb; reflexivity).
  assert (Hnl : nb ∉ batches (batcher w)).
  { intros Hl. destruct (H2 nb Hl) as [Hne _]. congruence. }
  assert (Hm : ∀ bt', members w' bt' = if decide (nb = bt') then [x] else members w bt').
  { intros bt'. unfold members. simpl. destruct (decide (nb = bt')) as [<- |].
    - rewrite lookup_insert_eq. reflexivity.
    - rewrite lookup_insert_ne by assumption. reflexivity. }
  split; [| split; [| split]].
  - split; simpl.
    + apply NoDup_app. split; [exact H1 |]. split; [| apply NoDup_singleton].
      intros bt' Hl Hl'. apply list_elem_of_singleton in Hl' as ->. exact (Hnl Hl).
    + intros bt' Hl'. rewrite Hm. destruct (decide (nb = bt')) as [<- |].
      * split; [discriminate | apply NoDup_singleton].
      * apply H2. apply elem_of_app in Hl' as [Hl' | Hl']; [exact Hl' |].
        apply list_elem_of_singleton in Hl'. congruence.
    + intros bt' y Hl' Hy. rewrite Hm in Hy. destruct (decide (nb = bt')) as [<- |].
      * apply list_elem_of_singleton in Hy as ->.
        split; [apply lookup_insert_eq | eauto].
      * assert (Hl : bt' ∈ batches (batcher w)).
        { apply elem_of_app in Hl' as [Hl' | Hl']; [exact Hl' |].
          apply list_elem_of_singleton in Hl'. congruence. }
        rewrite lookup_insert_ne; [apply (H3 bt' y Hl Hy) |].
        intros <-. exact (Habs bt' Hl Hy).
    + intros y bt' Hy. rewrite Hm. destruct (decide (x = y)) as [<- | Hxy].
      * rewrite lookup_insert_eq in Hy. injection Hy as <-. left.
        split; [apply elem_of_app; right; left |].
        rewrite decide_True by reflexivity. left.
      * rewrite lookup_insert_ne in Hy by assumption.
        assert (Hne : nb ≠ bt').
        { intros <-. destruct (H4 y nb Hy) as [[_ Hin] | [_ E]].
          - rewrite Hmnb in Hin. inversion Hin.
          - congruence. }
        rewrite decide_False by assumption.
        destruct (H4 y bt' Hy) as [[Hl' Hin] | [Hnl' E]].
        -- left. split; [apply elem_of_app; left; exact Hl' | exact Hin].
        -- right. split; [| exact E]. intros Hl'.
           apply elem_of_app in Hl' as [Hl' | Hl']; [exact (Hnl' Hl') |].
           apply list_elem_of_singleton in Hl'. congruence.
  - exists nb. split; [apply lookup_insert_eq |]. simpl.
    apply elem_of_app. right. left.
  - intros y Hy. simpl. apply lookup_insert_ne. congruence.
  - intros c Hc. simpl. apply elem_of_app. left. exact Hc.
Qed.

Lemma matches_valid (w : World) (bt obj : positive) (r : bool) :
  matches w bt obj = Ret r → is_Some (objs w !! obj).
Proof.
  unfold matches, derefObject. destruct (objs w !! obj); [eauto | discriminate].
Qed.

Lemma findBatchIn_matches (w : World) (l : list positive) (obj bt : positive) :
  findBatchIn w l obj = Ret (Some bt) → matches w bt obj = Ret true.
Proof.
  induction l as [| c l IH]; simpl; [discriminate |].
  destruct (matches w c obj) as [[] | msg] eqn:Hm; [| exact IH | discriminate].
  intros [= <-]. exact Hm.
Qed.

Lemma findBatch_world (x : positive) (w : World) :
  findBatch x w = (findBatchIn w (batches (batcher w)) x, w).
Proof. reflexivity. Qed.


Lemma place_sound (w : World) (x : positive) :
  sound w → absent w x →
  sound (snd (place x w)) ∧
  (∀ msg, fst (place x w) = Panic msg → snd (place x w) = w) ∧
  (fst (place x w) = Ret tt →
   ∃ nb, batchByObj (batcher (snd (place x w))) !! x = Some nb ∧
         nb ∈ batches (batcher (snd (place x w)))) ∧
  (∀ y, y ≠ x → batchByObj (batcher (snd (place x w))) !! y
                 = batchByObj (batcher w) !! y) ∧
  (∀ c, c ∈ batches (batcher w) → c ∈ batches (batcher (snd (place x w)))).
Proof.
  intros Hs Habs. unfold place, bind. rewrite findBatch_world.
  destruct (findBatchIn w (batches (batcher w)) x) as [[bt |] | msg] eqn:Hf.
  - pose proof Hf as Hf'. apply findBatchIn_Some in Hf' as [Hl _].
    assert (Hv : is_Some (objs w !! x)).
    { eapply matches_valid, findBatchIn_matches, Hf. }
    destruct (addToBatch_sound w x bt Hs Habs Hv Hl) as (Hr & Hs' & Hi & Hk & Hbs).
    cbv beta iota.
    split; [exact Hs' |]. split; [intros msg E; rewrite Hr in E; discriminate |].
    split; [intros _; eauto |]. split; [exact Hk |].
    intros c Hc. rewrite Hbs. exact Hc.
  - cbv beta iota. destruct (fst (newBatch x w)) as [[] | msg] eqn:Hr.
    + destruct (newBatch_sound w x Hs Habs Hr) as (Hs' & Hi & Hk & Hbs).
      split; [exact Hs' |]. split; [discriminate |].
      split; [intros _; exact Hi |]. split; [exact Hk | exact Hbs].
    + rewrite (newBatch_panic w x msg Hr).
      split; [exact Hs |]. split; [reflexivity |]. split; [discriminate | auto].
  - simpl. split; [exact Hs |]. split; [reflexivity |]. split; [discriminate | auto].
Qed.

Lemma setBatches_same (w : World) :
  setBatcher (setBatches (batches (batcher w)) (batcher w)) w = w.
Proof. destruct w as [? ? ? [? ?] ?]. reflexivity. Qed.

(** [removeFromBatch] on the index entry of an object: it returns, no batch
    of the batcher holds the object afterwards, and the other objects stay
    where they are. *)
Lemma removeFromBatch_sound (w : World) (x bt : positive) :
  sound w → batchByObj (batcher w) !! x = Some bt →
  fst (removeFromBatch x bt w) = Ret tt ∧
  sound (snd (removeFromBatch x bt w)) ∧
  absent (snd (removeFromBatch x bt w)) x ∧
  objs (snd (removeFromBatch x bt w)) = objs w ∧
  (∀ y, absent w y → absent (snd (removeFromBatch x bt w)) y) ∧
  (∀ y, y ≠ x → batchByObj (batcher (snd (removeFromBatch x bt w))) !! y
                 = batchByObj (batcher w) !! y) ∧
  (∀ y c, y ≠ x → batchByObj (batcher w) !! y = Some c → c ∈ batches (batcher w) →
     c ∈ batches (batcher (snd (removeFromBatch x bt w)))).
Proof.
  intros Hs Hx. pose proof Hs as [H1 H2 H3 H4].
  destruct (H4 x bt Hx) as [[Hl Hin] | [Hnl Hone]].
  - destruct (H2 bt Hl) as [Hne Hnd].
    destruct (members_allocated w bt Hne) as (b & Hb & Hmb).
    rewrite Hmb in Hin, Hnd.
    destruct (decide (objects b = [x])) as [Hone | Hmore].
    + (* the only member: the batch leaves the list *)
      pose proof Hl as Hl'. apply list_elem_of_lookup_1 in Hl' as [k Hk].
      rewrite (removeFromBatch_last w x bt b k Hb Hone H1 Hk). simpl.
      set (bs := take k (batches (batcher w)) ++ drop (S k) (batches (batcher w))).
      assert (Hbs : ∀ c, c ∈ bs ↔ c ∈ batches (batcher w) ∧ c ≠ bt).
      { intros c. apply elem_of_cut; assumption. }
      split; [reflexivity |]. split; [| split; [| split; [| split; [| split]]]].
      * split; simpl.
        -- apply NoDup_cut, H1.
        -- intros c Hc. apply Hbs in Hc as [Hc _]. apply (H2 c Hc).
        -- intros c y Hc Hy. apply Hbs in Hc as [Hc _]. apply (H3 c y Hc Hy).
        -- intros y c Hy. destruct (H4 y c Hy) as [[Hc Hyin] | [Hc E]].
           ++ destruct (decide (c = bt)) as [-> | Hcb].
              ** right. split; [intros Hc'; apply Hbs in Hc' as [_ ?]; congruence |].
                 change (members w bt = [y]). rewrite Hmb, Hone.
                 change (y ∈ members w bt) in Hyin. rewrite Hmb, Hone in Hyin.
                 apply list_elem_of_singleton in Hyin as ->. reflexivity.
              ** left. split; [apply Hbs; auto | exact Hyin].
           ++ right. split; [| exact E]. intros Hc'. apply Hbs in Hc' as [? _]. auto.
      * intros c Hc Hy. simpl in Hc. apply Hbs in Hc as [Hc Hcb].
        change (x ∈ members w c) in Hy. destruct (H3 c x Hc Hy). congruence.
      * reflexivity.
      * intros y Hy c Hc. simpl in Hc. apply Hbs in Hc as [Hc _]. exact (Hy c Hc).
      * reflexivity.
      * intros y c Hyx Hy Hc. simpl. apply Hbs. split; [exact Hc |].
        intros ->. destruct (H4 y bt Hy) as [[_ Hyin] | [Hn _]]; [| auto].
        rewrite Hmb, Hone in Hyin. apply list_elem_of_singleton in Hyin. congruence.
    + (* other members: the object leaves the member list and the index *)
      pose proof Hin as Hin'. apply list_elem_of_lookup_1 in Hin' as [k Hk].
      rewrite (removeFromBatch_member w x bt b k Hb Hnd Hk Hmore). simpl.
      set (w' := {| objs := objs w; texArrays := texArrays w; batchHeap := _;
                    batcher := _; canvas := canvas w |}).
      set (ms := take k (objects b) ++ drop (S k) (objects b)).
      assert (Hms : ∀ y, y ∈ ms ↔ y ∈ objects b ∧ y ≠ x).
      { intros y. apply elem_of_cut; assumption. }
      assert (Hm : ∀ c, members w' c = if decide (bt = c) then ms else members w c).
      { intros c. unfold members. simpl. destruct (decide (bt = c)) as [<- |].
        - rewrite lookup_insert_eq. reflexivity.
        - rewrite lookup_insert_ne by assumption. reflexivity. }
      split; [reflexivity |]. split; [| split; [| split; [| split; [| split]]]].
      * split; simpl.
        -- exact H1.
        -- intros c Hc. rewrite Hm. destruct (decide (bt = c)) as [<- |]; [| auto].
           split; [| apply NoDup_cut, Hnd].
           destruct (objects b) as [| y1 [| y2 l]] eqn:E.
           ++ inversion Hin.
           ++ apply list_elem_of_singleton in Hin. congruence.
           ++ intros Hnil.
              assert (Hy : ∀ y, y ∈ y1 :: y2 :: l → y = x).
              { intros y Hy. destruct (decide (y = x)) as [| Hyx]; [assumption |].
                assert (y ∈ ms) as Hyin by (apply Hms; auto).
                rewrite Hnil in Hyin. inversion Hyin. }
              apply NoDup_cons in Hnd as [Hnd _]. apply Hnd.
              rewrite (Hy y1) by left. rewrite (Hy y2) by (right; left). left.
        -- intros c y Hc Hy. rewrite Hm in Hy. destruct (decide (bt = c)) as [<- |].
           ++ apply Hms in Hy as [Hy Hyx]. rewrite lookup_delete_ne by congruence.
              apply (H3 bt y Hc). rewrite Hmb. exact Hy.
           ++ destruct (H3 c y Hc Hy) as [Hi Hv]. split; [| exact Hv].
              rewrite lookup_delete_ne; [exact Hi |]. intros <-. congruence.
        -- intros y c Hy. rewrite Hm.
           destruct (decide (x = y)) as [<- | Hxy];
             [rewrite lookup_delete_eq in Hy; discriminate |].
           rewrite lookup_delete_ne in Hy by assumption.
           destruct (H4 y c Hy) as [[Hc Hyin] | [Hc E]].
           ++ left. split; [exact Hc |]. destruct (decide (bt = c)) as [<- |]; [| exact Hyin].
              apply Hms. rewrite <- Hmb. split; [exact Hyin | congruence].
           ++ right. split; [exact Hc |].
              rewrite decide_False by (intros <-; exact (Hc Hl)). exact E.
      * intros c Hc Hy. simpl in Hc. rewrite Hm in Hy.
        destruct (decide (bt = c)) as [<- |].
        -- apply Hms in Hy as [_ ?]. congruence.
        -- destruct (H3 c x Hc Hy). congruence.
      * reflexivity.
      * intros y Hy c Hc Hyin. simpl in Hc. rewrite Hm in Hyin.
        destruct (decide (bt = c)) as [<- |].
        -- apply Hms in Hyin as [Hyin _]. apply (Hy bt Hc). rewrite Hmb. exact Hyin.
        -- exact (Hy c Hc Hyin).
      * intros y Hyx. simpl. apply lookup_delete_ne. congruence.
      * intros y c Hyx Hy Hc. exact Hc.
  - (* the batch has left the batcher before: nothing changes *)
    assert (Hne : members w bt ≠ []) by (rewrite Hone; discriminate).
    destruct (members_allocated w bt Hne) as (b & Hb & Hmb). rewrite Hmb in Hone.
    assert (E : removeFromBatch x bt w = (Ret tt, w)).
    { unfold removeFromBatch, bind, derefBatch. rewrite Hb, Hone. simpl.
      rewrite bool_decide_eq_true_2 by reflexivity.
      rewrite deleteInRange_absent by assumption. rewrite setBatches_same. reflexivity. }
    rewrite E. simpl. split; [reflexivity |]. split; [exact Hs |].
    split; [| split; [reflexivity | split; [auto | split; [reflexivity |]]]].
    + intros c Hc Hy. destruct (H3 c x Hc Hy). congruence.
    + intros y c _ Hy Hc. auto.
Qed.

Lemma addObject_place (x : positive) (w : World) :
  batchByObj (batcher w) !! x = None → addObject x w = place x w.
Proof. intros Hx. unfold addObject, place, bind, get. rewrite Hx. reflexivity. Qed.

Lemma addObject_sound (w : World) (x : positive) :
  sound w → sound (snd (addObject x w)).
Proof.
  intros Hs. destruct (batchByObj (batcher w) !! x) as [bt |] eqn:Hx.
  - unfold addObject, bind, get. rewrite Hx. apply clearBatch_sound, Hs.
  - rewrite addObject_place by assumption.
    apply place_sound; [exact Hs | apply sound_untracked_absent; assumption].
Qed.

Lemma forEach_keeps (P : World → Prop) {A} (body : A → M unit) (l : list A) (w : World) :
  (∀ x w, P w → P (snd (body x w))) → P w → P (snd (forEach l body w)).
Proof.
  intros Hb. revert w. induction l as [| x l IH]; intros w Hw; simpl; [exact Hw |].
  unfold bind. specialize (Hb x w Hw).
  destruct (body x w) as [[[] | msg] w1]; simpl in *; [apply IH, Hb | exact Hb].
Qed.

Lemma Add_sound (l : list positive) (w : World) : sound w → sound (snd (Add l w)).
Proof. apply (forEach_keeps sound). intros x w'. apply addObject_sound. Qed.

Lemma removeObject_sound (w : World) (x : positive) :
  sound w →
  fst (removeObject x w) = Ret tt ∧ sound (snd (removeObject x w)) ∧
  absent (snd (removeObject x w)) x ∧
  (∀ y, absent w y → absent (snd (removeObject x w)) y).
Proof.
  intros Hs. unfold removeObject, bind, get.
  destruct (batchByObj (batcher w) !! x) as [bt |] eqn:Hx.
  - destruct (removeFromBatch_sound w x bt Hs Hx) as (Hr & Hs' & Ha & _ & Hk & _).
    auto.
  - simpl. split; [reflexivity |]. split; [exact Hs |].
    split; [apply sound_untracked_absent; assumption | auto].
Qed.

Lemma Remove_sound (l : list positive) (w : World) :
  sound w →
  fst (Remove l w) = Ret tt ∧ sound (snd (Remove l w)) ∧
  (∀ y, absent w y → absent (snd (Remove l w)) y) ∧
  (∀ x, x ∈ l → absent (snd (Remove l w)) x).
Proof.
  unfold Remove. revert w. induction l as [| x l IH]; intros w Hs; simpl.
  - split; [reflexivity |]. split; [exact Hs |]. split; [auto |].
    intros x Hx. inversion Hx.
  - unfold bind. destruct (removeObject_sound w x Hs) as (Hr & Hs1 & Ha & Hk).
    destruct (removeObject x w) as [[[] | msg] w1]; simpl in *; [| discriminate].
    destruct (IH w1 Hs1) as (Hr' & Hs' & Hk' & Ha').
    split; [exact Hr' |]. split; [exact Hs' |]. split; [auto |].
    intros y Hy. apply elem_of_cons in Hy as [-> | Hy]; auto.
Qed.

Lemma updateObject_sound (w : World) (x : positive) :
  sound w → sound (snd (updateObject x w)).
Proof.
  intros Hs. unfold updateObject, bind, get, lift.
  destruct (batchByObj (batcher w) !! x) as [bt |] eqn:Hx.
  - destruct (matches w bt x) as [[] | msg] eqn:Hm; simpl; [| | exact Hs].
    + apply clearBatch_sound, Hs.
    + destruct (removeFromBatch_sound w x bt Hs Hx) as (Hr & Hs1 & Ha & _).
      destruct (removeFromBatch x bt w) as [[[] | msg] w1]; simpl in *; [| discriminate].
      apply (place_sound w1 x Hs1 Ha).
  - destruct (fst (newBatch x w)) as [[] | msg] eqn:Hr.
    + apply newBatch_sound; [exact Hs | | exact Hr].
      apply sound_untracked_absent; assumption.
    + rewrite (newBatch_panic w x msg Hr). exact Hs.
Qed.

Lemma Update_sound (l : list positive) (w : World) : sound w → sound (snd (Update l w)).
Proof. apply (forEach_keeps sound). intros x w'. apply updateObject_sound. Qed.

Lemma DrawTo_sound (w : World) : sound w → sound (snd (DrawTo w)).
Proof.
  pose proof (keeps_DrawTo w) as Hf.
  apply sound_same_members; [apply Hf | | ].
  - intros bt. apply drawFrame_members, Hf.
  - intros x. rewrite (frame_objs _ _ Hf). auto.
Qed.

Lemma perform_sound (c : call) (w : World) : sound w → sound (snd (perform c w)).
Proof.
  destruct c as [l | l | l | | x o | x i t]; simpl.
  - apply Add_sound.
  - apply Remove_sound.
  - apply Update_sound.
  - apply DrawTo_sound.
  - apply sound_same_members; [reflexivity | reflexivity |].
    intros y Hy. simpl. destruct (decide (x = y)) as [<- |].
    + rewrite lookup_insert_eq. eauto.
    + rewrite lookup_insert_ne by assumption. exact Hy.
  - intros H. unfold setTexture. destruct (derefObject w x) as [o | msg]; [| exact H].
    destruct (decide _); [| exact H].
    revert H. apply sound_same_members; [reflexivity | reflexivity | auto].
Qed.

Lemma emptyWorld_sound (os : gmap positive Object)
    (ts : gmap positive (list TextureRef)) :
  sound (emptyWorld os ts).
Proof.
  split; simpl.
  - constructor.
  - intros bt H. inversion H.
  - intros bt x H. inversion H.
  - intros x bt H. rewrite lookup_empty in H. discriminate.
Qed.

Lemma run_sound (cs : list call) (w : World) : sound w → sound (run cs w).
Proof.
  revert w. induction cs as [| c cs IH]; intros w Hs; simpl; [exact Hs |].
  apply IH, perform_sound, Hs.
Qed.


(** ** The states a client can reach *)

Lemma sound_disjoint (w : World) (bt bt' x : positive) :
  sound w → bt ∈ batches (batcher w) → bt' ∈ batches (batcher w) →
  x ∈ members w bt → x ∈ members w bt' → bt = bt'.
Proof.
  intros Hs Hl Hl' Hx Hx'.
  destruct (sound_member w Hs bt x Hl Hx) as [E _].
  destruct (sound_member w Hs bt' x Hl' Hx') as [E' _]. congruence.
Qed.

Lemma reachable_sound (os : gmap positive Object)
    (ts : gmap positive (list TextureRef)) (l : list positive) (cs : list call) :
  sound (run cs (snd (NewBatcher os ts l))).
Proof. apply run_sound, Add_sound, emptyWorld_sound. Qed.

(** X7: in every state that a client reaches from [NewBatcher] by calls of
    [Add], [Remove], [Update] and [DrawTo] and by writes to its objects and
    their texture slices, whether the calls return or panic: the batches of
    the batcher are distinct, none of them is empty, no object is twice in a
    batch or in two batches, and every member of a batch is a valid object
    whose index entry is that batch. *)
Theorem client_states_sound (os : gmap positive Object)
    (ts : gmap positive (list TextureRef)) (l : list positive) (cs : list call) :
  let w := run cs (snd (NewBatcher os ts l)) in
  NoDup (batches (batcher w)) ∧
  (∀ bt, bt ∈ batches (batcher w) → members w bt ≠ [] ∧ NoDup (members w bt)) ∧
  (∀ bt bt' x, bt ∈ batches (batcher w) → bt' ∈ batches (batcher w) →
     x ∈ members w bt → x ∈ members w bt' → bt = bt') ∧
  (∀ bt x, bt ∈ batches (batcher w) → x ∈ members w bt →
     batchByObj (batcher w) !! x = Some bt ∧ is_Some (objs w !! x)).
Proof.
  intros w. pose proof (reachable_sound os ts l cs) as Hs. fold w in Hs.
  split; [apply Hs |]. split; [apply Hs |]. split; [| apply Hs].
  intros bt bt' x. apply sound_disjoint, Hs.
Qed.

Lemma removeObject_others (w : World) (x : positive) :
  sound w →
  ∀ y c, y ≠ x → c ∈ batches (batcher w) → y ∈ members w c →
    c ∈ batches (batcher (snd (removeObject x w))) ∧
    y ∈ members (snd (removeObject x w)) c.
Proof.
  intros Hs y c Hyx Hc Hy. unfold removeObject, bind, get.
  destruct (batchByObj (batcher w) !! x) as [bt |] eqn:Hx; [| simpl; auto].
  destruct (removeFromBatch_sound w x bt Hs Hx) as (_ & Hs' & _ & _ & _ & Hi & Hk).
  destruct (sound_member w Hs c y Hc Hy) as [Ey _].
  pose proof (Hk y c Hyx Ey Hc) as Hc'. split; [exact Hc' |].
  rewrite <- (Hi y Hyx) in Ey.
  destruct (sound_index _ Hs' y c Ey) as [[_ H] | [H _]]; [exact H | contradiction].
Qed.

Lemma Remove_others (l : list positive) (w : World) :
  sound w →
  ∀ y c, y ∉ l → c ∈ batches (batcher w) → y ∈ members w c →
    c ∈ batches (batcher (snd (Remove l w))) ∧ y ∈ members (snd (Remove l w)) c.
Proof.
  unfold Remove. revert w. induction l as [| x l IH]; intros w Hs y c Hy Hc Hm; simpl.
  - auto.
  - unfold bind. destruct (removeObject_sound w x Hs) as (Hr & Hs1 & _).
    apply not_elem_of_cons in Hy as [Hyx Hy].
    destruct (removeObject_others w x Hs y c Hyx Hc Hm) as [Hc1 Hm1].
    destruct (removeObject x w) as [[[] | msg] w1]; simpl in *; [| discriminate].
    apply IH; assumption.
Qed.

(** X8: in every state a client can reach, [Remove] returns; afterwards no
    batch of the batcher holds an object of its argument, and every other
    object is in the batch it was in, which is still a batch of the
    batcher. *)
Theorem Remove_returns (os : gmap positive Object)
    (ts : gmap positive (list TextureRef)) (l : list positive) (cs : list call)
    (gone : list positive) :
  let w := run cs (snd (NewBatcher os ts l)) in
  let w' := snd (Remove gone w) in
  fst (Remove gone w) = Ret tt ∧
  (∀ x bt, x ∈ gone → bt ∈ batches (batcher w') → x ∉ members w' bt) ∧
  (∀ y bt, y ∉ gone → bt ∈ batches (batcher w) → y ∈ members w bt →
     bt ∈ batches (batcher w') ∧ y ∈ members w' bt).
Proof.
  intros w w'. pose proof (reachable_sound os ts l cs) as Hs. fold w in Hs.
  destruct (Remove_sound gone w Hs) as (Hr & _ & _ & Ha).
  split; [exact Hr |]. split.
  - intros x bt Hx. apply (Ha x Hx).
  - apply Remove_others, Hs.
Qed.

(** ** The invariant of section 3 under [Add] and [Update] *)

Lemma invariant_listedIndex (w : World) : batcherInvariant w → listedIndex w.
Proof. intros Hi x bt Hx. apply (inv_index_listed w Hi x bt Hx). Qed.

Lemma sound_listedIndex_invariant (w : World) :
  sound w → listedIndex w → batcherInvariant w.
Proof.
  intros Hs Hl. split.
  - intros x bt Hx. split; [apply (Hl x bt Hx) |].
    destruct (sound_index w Hs x bt Hx) as [[_ H] | [H _]]; [exact H |].
    destruct H. apply (Hl x bt Hx).
  - intros x bt Hb Hx. apply (sound_member w Hs bt x Hb Hx).
  - apply Hs.
  - intros bt Hb. apply (sound_listed w Hs bt Hb).
Qed.

Lemma clearBatch_batcher (bt : positive) (w : World) :
  batcher (snd (clearBatch bt w)) = batcher w.
Proof.
  unfold clearBatch, bind, derefBatch.
  destruct (batchHeap w !! bt); reflexivity.
Qed.

Lemma place_listedIndex (w : World) (x : positive) :
  sound w → absent w x →
  (∀ y c, y ≠ x → batchByObj (batcher w) !! y = Some c → c ∈ batches (batcher w)) →
  fst (place x w) = Ret tt → listedIndex (snd (place x w)).
Proof.
  intros Hs Ha Hl Hr.
  destruct (place_sound w x Hs Ha) as (_ & _ & Hx & Hi & Hk).
  destruct (Hx Hr) as (nb & Enb & Hnb).
  intros y c Hy. destruct (decide (y = x)) as [-> | Hyx].
  - congruence.
  - rewrite (Hi y Hyx) in Hy. apply Hk, (Hl y c Hyx Hy).
Qed.

Lemma addObject_listedIndex (w : World) (x : positive) :
  sound w → listedIndex w → listedIndex (snd (addObject x w)).
Proof.
  intros Hs Hl. destruct (batchByObj (batcher w) !! x) as [bt |] eqn:Hx.
  - unfold addObject, bind, get. rewrite Hx.
    unfold listedIndex. rewrite clearBatch_batcher. exact Hl.
  - rewrite addObject_place by assumption.
    pose proof (sound_untracked_absent w x Hs Hx) as Ha.
    destruct (fst (place x w)) as [[] | msg] eqn:Hr.
    + apply place_listedIndex; auto. intros y c _. apply Hl.
    + destruct (place_sound w x Hs Ha) as (_ & Hp & _).
      rewrite (Hp msg Hr). exact Hl.
Qed.

Lemma updateObject_listedIndex (w : World) (x : positive) :
  sound w → listedIndex w → fst (updateObject x w) = Ret tt →
  listedIndex (snd (updateObject x w)).
Proof.
  intros Hs Hl. unfold updateObject, bind, get, lift.
  destruct (batchByObj (batcher w) !! x) as [bt |] eqn:Hx.
  - destruct (matches w bt x) as [[] | msg] eqn:Hm; simpl; [| | discriminate].
    + intros _. unfold listedIndex. rewrite clearBatch_batcher. exact Hl.
    + destruct (removeFromBatch_sound w x bt Hs Hx) as (Hr & Hs1 & Ha & _ & _ & Hi & Hk).
      destruct (removeFromBatch x bt w) as [[[] | msg] w1]; simpl in *; [| discriminate].
      apply (place_listedIndex w1 x Hs1 Ha).
      intros y c Hyx Hy. rewrite (Hi y Hyx) in Hy. apply (Hk y c Hyx Hy), (Hl y c Hy).
  - intros Hr. pose proof (sound_untracked_absent w x Hs Hx) as Ha.
    destruct (newBatch_sound w x Hs Ha Hr) as (_ & (nb & Enb & Hnb) & Hi & Hk).
    intros y c Hy. destruct (decide (y = x)) as [-> | Hyx].
    + congruence.
    + rewrite (Hi y Hyx) in Hy. apply Hk, (Hl y c Hy).
Qed.

Lemma Update_listedIndex (l : list positive) (w : World) :
  sound w → listedIndex w → fst (Update l w) = Ret tt →
  listedIndex (snd (Update l w)).
Proof.
  unfold Update. revert w. induction l as [| x l IH]; intros w Hs Hl; simpl; [auto |].
  unfold bind. pose proof (updateObject_sound w x Hs) as Hs1.
  pose proof (updateObject_listedIndex w x Hs Hl) as Hl1.
  destruct (updateObject x w) as [[[] | msg] w1]; simpl in *; [| discriminate].
  apply IH; auto.
Qed.

(** X9: in a state a client can reach and in which the invariant of
    section 3 holds, an [Update] that returns leaves a state in which it
    holds: no index entry is left that points to a batch the batcher has
    dropped. *)
Theorem Update_keeps_invariant (os : gmap positive Object)
    (ts : gmap positive (list TextureRef)) (l : list positive) (cs : list call)
    (changed : list positive) :
  let w := run cs (snd (NewBatcher os ts l)) in
  batcherInvariant w → fst (Update changed w) = Ret tt →
  batcherInvariant (snd (Update changed w)).
Proof.
  intros w Hi Hr. pose proof (reachable_sound os ts l cs) as Hs. fold w in Hs.
  apply sound_listedIndex_invariant.
  - apply Update_sound, Hs.
  - apply Update_listedIndex; [exact Hs | apply invariant_listedIndex, Hi | exact Hr].
Qed.

Lemma Update_keeps_invariant_witness :
  let w := run [ClientWrite 12%positive (mkObject ditheredState None 21%positive [])]
             (snd (NewBatcher sceneObjects sceneTextures [11%positive; 12%positive])) in
  batcherInvariant w ∧ fst (Update [12%positive] w) = Ret tt ∧
  batcherInvariant (snd (Update [12%positive] w)).
Proof.
  assert (Hi : batcherInvariant
                 (run [ClientWrite 12%positive (mkObject ditheredState None 21%positive [])]
                    (snd (NewBatcher sceneObjects sceneTextures
                            [11%positive; 12%positive])))).
  { apply sound_listedIndex_invariant; [apply reachable_sound |].
    apply (invariant_listedIndex _
             (NewBatcher_invariant sceneObjects sceneTextures [11%positive; 12%positive])). }
  assert (Hr : fst (Update [12%positive]
                      (run [ClientWrite 12%positive
                              (mkObject ditheredState None 21%positive [])]
                         (snd (NewBatcher sceneObjects sceneTextures
                                 [11%positive; 12%positive]))))
               = Ret tt).
  { vm_compute. reflexivity. }
  split; [exact Hi |]. split; [exact Hr |].
  exact (Update_keeps_invariant sceneObjects sceneTextures [11%positive; 12%positive]
           [ClientWrite 12%positive (mkObject ditheredState None 21%positive [])]
           [12%positive] Hi Hr).
Defined.


(** ** [Add], again *)

Lemma setBatchHeap_same (w : World) (bt : positive) (b : batch) :
  batchHeap w !! bt = Some b → batchObject b = None →
  setBatchHeap (<[bt := setBatchObject None b]> (batchHeap w)) w = w.
Proof.
  intros Hb Hc.
  assert (E : setBatchObject None b = b) by (destruct b; simpl in *; subst; reflexivity).
  rewrite E, insert_id by assumption. destruct w; reflexivity.
Qed.

Lemma addObject_settled (w : World) (x : positive) :
  settled w x → addObject x w = (Ret tt, w).
Proof.
  intros (bt & b & Hx & Hb & Hc). unfold addObject, bind, get. rewrite Hx.
  rewrite (clearBatch_world w bt b Hb), setBatchHeap_same by assumption. reflexivity.
Qed.

Lemma clearBatch_settled (w : World) (bt y : positive) :
  settled w y → settled (snd (clearBatch bt w)) y.
Proof.
  intros (c & b & Hy & Hb & Hc). unfold clearBatch, bind, derefBatch.
  destruct (batchHeap w !! bt) as [b0 |] eqn:Hb0; simpl; [| exists c, b; auto].
  unfold settled. simpl. destruct (decide (bt = c)) as [-> | Hne].
  - exists c, (setBatchObject None b0). rewrite lookup_insert_eq. auto.
  - exists c, b. rewrite lookup_insert_ne by assumption. auto.
Qed.

Lemma clearBatch_settles (w : World) (bt x : positive) :
  batchByObj (batcher w) !! x = Some bt → fst (clearBatch bt w) = Ret tt →
  settled (snd (clearBatch bt w)) x.
Proof.
  intros Hx. unfold clearBatch, bind, derefBatch.
  destruct (batchHeap w !! bt) as [b0 |] eqn:Hb0; simpl; [| discriminate].
  intros _. unfold settled. simpl.
  exists bt, (setBatchObject None b0). rewrite lookup_insert_eq. auto.
Qed.

Lemma addToBatch_settled (w : World) (x bt y : positive) :
  (y = x ∧ fst (addToBatch x bt w) = Ret tt) ∨ settled w y →
  settled (snd (addToBatch x bt w)) y.
Proof.
  intros H. destruct (batchHeap w !! bt) as [b0 |] eqn:Hb0.
  - rewrite (addToBatch_world w x bt b0 Hb0) in *. unfold settled. simpl.
    destruct (decide (y = x)) as [-> | Hyx].
    + eexists bt, _. rewrite !lookup_insert_eq. auto.
    + destruct H as [[? _] | (c & b & Hy & Hb & Hc)]; [contradiction |].
      destruct (decide (bt = c)) as [-> | Hne].
      * eexists c, _. rewrite lookup_insert_ne, lookup_insert_eq by congruence. auto.
      * exists c, b. rewrite !lookup_insert_ne by congruence. auto.
  - unfold addToBatch, bind, derefBatch in *. rewrite Hb0 in *. simpl in *.
    destruct H as [[_ ?] | H]; [discriminate | exact H].
Qed.

Lemma newBatch_settled (w : World) (x y : positive) :
  (y = x ∧ fst (newBatch x w) = Ret tt) ∨ settled w y →
  settled (snd (newBatch x w)) y.
Proof.
  intros H. destruct (fst (newBatch x w)) as [[] | msg] eqn:Hr.
  - destruct (objs w !! x) as [o |] eqn:Ho;
      [| unfold newBatch, derefObject in Hr; rewrite Ho in Hr; discriminate].
    apply (newBatch_returns w x o Ho) in Hr as [mt Hmt].
    rewrite (newBatch_world w x o mt Ho Hmt) in *. unfold settled. simpl.
    destruct (decide (y = x)) as [-> | Hyx].
    + eexists _, _. rewrite !lookup_insert_eq. auto.
    + destruct H as [[? _] | (c & b & Hy & Hb & Hc)]; [contradiction |].
      exists c, b. rewrite lookup_insert_ne by congruence. split; [exact Hy |].
      split; [| exact Hc]. rewrite lookup_insert_ne; [exact Hb |].
      intros <-. pose proof (is_fresh (dom (batchHeap w))) as Hf.
      apply Hf, elem_of_dom. eauto.
  - rewrite (newBatch_panic w x msg Hr).
    destruct H as [[_ ?] | H]; [discriminate | exact H].
Qed.

Lemma addObject_keeps_settled (w : World) (x y : positive) :
  (y = x ∧ fst (addObject x w) = Ret tt) ∨ settled w y →
  settled (snd (addObject x w)) y.
Proof.
  unfold addObject, bind, get.
  destruct (batchByObj (batcher w) !! x) as [bt |] eqn:Hx.
  - intros [[-> Hr] | H]; [apply clearBatch_settles | apply clearBatch_settled];
      assumption.
  - rewrite findBatch_world.
    destruct (findBatchIn w (batches (batcher w)) x) as [[bt |] | msg].
    + apply addToBatch_settled.
    + apply newBatch_settled.
    + simpl. intros [[_ ?] | H]; [discriminate | exact H].
Qed.

Lemma Add_settles (l : list positive) (w : World) :
  fst (Add l w) = Ret tt →
  ∀ y, y ∈ l ∨ settled w y → settled (snd (Add l w)) y.
Proof.
  unfold Add. revert w. induction l as [| x l IH]; intros w Hr y Hy; simpl in *.
  - destruct Hy as [Hy | Hy]; [inversion Hy | exact Hy].
  - unfold bind in *. pose proof (addObject_keeps_settled w x y) as Hk.
    destruct (addObject x w) as [[[] | msg] w1]; simpl in *; [| discriminate].
    apply (IH w1 Hr). destruct Hy as [Hy | Hy]; [| auto].
    apply elem_of_cons in Hy as [-> | Hy]; auto.
Qed.

Lemma Add_settled (l : list positive) (w : World) :
  (∀ x, x ∈ l → settled w x) → Add l w = (Ret tt, w).
Proof.
  unfold Add. induction l as [| x l IH]; intros H; simpl; [reflexivity |].
  unfold bind. rewrite addObject_settled by (apply H; left).
  apply IH. intros y Hy. apply H. right. exact Hy.
Qed.

(** X10: [Add] is idempotent.  When [Add] of a list of objects returns, in
    whatever state it was called, the same call made again returns and
    changes nothing at all: every object of the list has its index entry
    and the cache of its batch is nil already. *)
Theorem Add_again (l : list positive) (w : World) :
  fst (Add l w) = Ret tt →
  Add l (snd (Add l w)) = (Ret tt, snd (Add l w)).
Proof.
  intros Hr. apply Add_settled. intros x Hx. apply Add_settles; auto.
Qed.

Lemma Add_again_witness :
  fst (Add [13%positive; 11%positive; 16%positive]
         (emptyWorld sceneObjects sceneTextures)) = Ret tt ∧
  Add [13%positive; 11%positive; 16%positive]
    (snd (Add [13%positive; 11%positive; 16%positive]
            (emptyWorld sceneObjects sceneTextures)))
  = (Ret tt, snd (Add [13%positive; 11%positive; 16%positive]
                    (emptyWorld sceneObjects sceneTextures))).
Proof.
  split; [vm_compute; reflexivity |].
  apply (Add_again [13%positive; 11%positive; 16%positive]
           (emptyWorld sceneObjects sceneTextures)).
  vm_compute; reflexivity.
Defined.

(** ** The objects in the batches after [Add] *)

Lemma addObject_index (w : World) (x y : positive) :
  sound w → y ≠ x →
  batchByObj (batcher (snd (addObject x w))) !! y = batchByObj (batcher w) !! y.
Proof.
  intros Hs Hyx. destruct (batchByObj (batcher w) !! x) as [bt |] eqn:Hx.
  - unfold addObject, bind, get. rewrite Hx, clearBatch_batcher. reflexivity.
  - rewrite addObject_place by assumption.
    apply place_sound; [exact Hs | apply sound_untracked_absent; assumption | exact Hyx].
Qed.

Lemma Add_index (l : list positive) (w : World) (y : positive) :
  sound w → y ∉ l →
  batchByObj (batcher (snd (Add l w))) !! y = batchByObj (batcher w) !! y.
Proof.
  unfold Add. revert w. induction l as [| x l IH]; intros w Hs Hy; simpl; [reflexivity |].
  apply not_elem_of_cons in Hy as [Hyx Hy].
  unfold bind. pose proof (addObject_sound w x Hs) as Hs1.
  pose proof (addObject_index w x y Hs Hyx) as Hi.
  destruct (addObject x w) as [[[] | msg] w1]; simpl in *; [| exact Hi].
  rewrite IH by assumption. exact Hi.
Qed.

Lemma Add_batched (l : list positive) (w : World) :
  sound w → batcherInvariant w → fst (Add l w) = Ret tt →
  ∀ x, (∃ bt, bt ∈ batches (batcher (snd (Add l w))) ∧ x ∈ members (snd (Add l w)) bt)
       ↔ x ∈ l ∨ ∃ bt, bt ∈ batches (batcher w) ∧ x ∈ members w bt.
Proof.
  intros Hs Hi Hr x.
  pose proof (Add_invariant l w Hi) as Hi'. split.
  - intros (bt & Hb & Hx). destruct (decide (x ∈ l)) as [| Hn]; [auto |]. right.
    pose proof (inv_member_indexed _ Hi' x bt Hb Hx) as E.
    rewrite (Add_index l w x Hs Hn) in E. exists bt.
    apply (inv_index_listed w Hi x bt E).
  - intros H.
    assert (Ht : ∃ bt, batchByObj (batcher (snd (Add l w))) !! x = Some bt).
    { destruct (decide (x ∈ l)) as [Hx | Hn].
      - destruct (Add_settles l w Hr x (or_introl Hx)) as (bt & _ & E & _). eauto.
      - destruct H as [| (bt & Hb & Hx)]; [contradiction |]. exists bt.
        rewrite (Add_index l w x Hs Hn). apply (inv_member_indexed w Hi x bt Hb Hx). }
    destruct Ht as [bt E]. exists bt. apply (inv_index_listed _ Hi' x bt E).
Qed.

(** X11: when [NewBatcher] returns, the objects in the batches of the new
    batcher are exactly the objects it was given, each in one batch only and
    once, under the index entry that names this batch. *)
Theorem NewBatcher_batches_its_arguments (os : gmap positive Object)
    (ts : gmap positive (list TextureRef)) (l : list positive) :
  fst (NewBatcher os ts l) = Ret tt →
  let w := snd (NewBatcher os ts l) in
  (∀ x, x ∈ l ↔ ∃ bt, bt ∈ batches (batcher w) ∧ x ∈ members w bt) ∧
  (∀ x bt bt', bt ∈ batches (batcher w) → bt' ∈ batches (batcher w) →
     x ∈ members w bt → x ∈ members w bt' → bt = bt') ∧
  (∀ bt, bt ∈ batches (batcher w) → NoDup (members w bt)) ∧
  (∀ x bt, batchByObj (batcher w) !! x = Some bt ↔
           bt ∈ batches (batcher w) ∧ x ∈ members w bt).
Proof.
  intros Hr w.
  pose proof (NewBatcher_invariant os ts l) as Hi. fold w in Hi.
  pose proof (Add_sound l _ (emptyWorld_sound os ts)) as Hs.
  change (snd (Add l (emptyWorld os ts))) with w in Hs.
  split; [| split; [| split]].
  - intros x.
    pose proof (Add_batched l (emptyWorld os ts) (emptyWorld_sound os ts)
                  (emptyWorld_invariant os ts) Hr x) as [H1 H2].
    split.
    + intros Hx. apply H2. auto.
    + intros H. destruct (H1 H) as [Hx | (bt & Hb & _)]; [exact Hx | inversion Hb].
  - intros x bt bt' Hb Hb'. apply (sound_disjoint w bt bt' x Hs Hb Hb').
  - apply Hi.
  - intros x bt. split; [apply Hi |]. intros [Hb Hx]. apply Hi; assumption.
Qed.

Lemma NewBatcher_batches_its_arguments_witness :
  fst (NewBatcher sceneObjects sceneTextures
         [13%positive; 14%positive; 16%positive]) = Ret tt ∧
  ∀ x, x ∈ [13%positive; 14%positive; 16%positive] ↔
       ∃ bt, bt ∈ batches (batcher (snd (NewBatcher sceneObjects sceneTextures
                                           [13%positive; 14%positive; 16%positive]))) ∧
             x ∈ members (snd (NewBatcher sceneObjects sceneTextures
                                 [13%positive; 14%positive; 16%positive])) bt.
Proof.
  split; [vm_compute; reflexivity |].
  apply (NewBatcher_batches_its_arguments sceneObjects sceneTextures
           [13%positive; 14%positive; 16%positive]).
  vm_compute; reflexivity.
Defined.

(** X12: in a state a client can reach and in which the invariant of
    section 3 holds, when [Add] returns the objects in the batches of the
    batcher are those that were in them and those of the argument. *)
Theorem Add_batches_its_arguments (os : gmap positive Object)
    (ts : gmap positive (list TextureRef)) (l0 : list positive) (cs : list call)
    (l : list positive) :
  let w := run cs (snd (NewBatcher os ts l0)) in
  batcherInvariant w → fst (Add l w) = Ret tt →
  ∀ x, (∃ bt, bt ∈ batches (batcher (snd (Add l w))) ∧ x ∈ members (snd (Add l w)) bt)
       ↔ x ∈ l ∨ ∃ bt, bt ∈ batches (batcher w) ∧ x ∈ members w bt.
Proof.
  intros w Hi Hr. apply Add_batched; [apply reachable_sound | exact Hi | exact Hr].
Qed.


Lemma Add_batches_its_arguments_witness :
  let w := run [CallDrawTo] (snd (NewBatcher sceneObjects sceneTextures [11%positive])) in
  batcherInvariant w ∧ fst (Add [12%positive; 14%positive] w) = Ret tt ∧
  ∀ x, (∃ bt, bt ∈ batches (batcher (snd (Add [12%positive; 14%positive] w))) ∧
              x ∈ members (snd (Add [12%positive; 14%positive] w)) bt)
       ↔ x ∈ [12%positive; 14%positive] ∨
         ∃ bt, bt ∈ batches (batcher w) ∧ x ∈ members w bt.
Proof.
  assert (Hi : batcherInvariant
                 (run [CallDrawTo]
                    (snd (NewBatcher sceneObjects sceneTextures [11%positive])))).
  { apply DrawTo_invariant, NewBatcher_invariant. }
  assert (Hr : fst (Add [12%positive; 14%positive]
                      (run [CallDrawTo]
                         (snd (NewBatcher sceneObjects sceneTextures [11%positive]))))
               = Ret tt).
  { vm_compute. reflexivity. }
  split; [exact Hi |]. split; [exact Hr |].
  exact (Add_batches_its_arguments sceneObjects sceneTextures [11%positive]
           [CallDrawTo] [12%positive; 14%positive] Hi Hr).
Defined.

(** ** [Remove] of the only member of a batch, then [Add] *)

Lemma Remove_Add_last (w : World) (x bt : positive) :
  sound w → bt ∈ batches (batcher w) → members w bt = [x] →
  fst (andThen (Remove [x] w) (Add [x])) = Ret tt ∧
  batchByObj (batcher (snd (andThen (Remove [x] w) (Add [x])))) !! x = Some bt ∧
  (bt ∉ batches (batcher (snd (andThen (Remove [x] w) (Add [x]))))) ∧
  absent (snd (andThen (Remove [x] w) (Add [x]))) x.
Proof.
  intros Hs Hl Hm.
  assert (Hx : batchByObj (batcher w) !! x = Some bt).
  { apply (sound_member w Hs bt x Hl). rewrite Hm. left. }
  destruct (members_allocated w bt) as (b & Hb & Hmb); [rewrite Hm; discriminate |].
  rewrite Hm in Hmb. symmetry in Hmb.
  pose proof (sound_batches w Hs) as Hnd.
  pose proof Hl as Hl'. apply list_elem_of_lookup_1 in Hl' as [k Hk].
  assert (E1 : Remove [x] w
               = (Ret tt, setBatcher (setBatches (take k (batches (batcher w))
                                                  ++ drop (S k) (batches (batcher w)))
                                        (batcher w)) w)).
  { rewrite Remove_single. unfold removeObject, bind, get. rewrite Hx.
    apply (removeFromBatch_last w x bt b k Hb Hmb Hnd Hk). }
  rewrite E1. unfold andThen.
  set (w1 := setBatcher _ w).
  assert (E2 : Add [x] w1
               = (Ret tt, setBatchHeap (<[bt := setBatchObject None b]> (batchHeap w1)) w1)).
  { rewrite Add_single. unfold addObject, bind, get.
    change (batchByObj (batcher w1) !! x) with (batchByObj (batcher w) !! x).
    rewrite Hx. apply clearBatch_world. exact Hb. }
  rewrite E2. cbn [fst snd]. split; [reflexivity |]. split; [exact Hx |]. split.
  - intros Hin.
    change (bt ∈ take k (batches (batcher w)) ++ drop (S k) (batches (batcher w))) in Hin.
    apply (elem_of_cut _ k bt bt Hnd Hk) in Hin as [_ Hne]. congruence.
  - intros c Hc.
    change (c ∈ take k (batches (batcher w)) ++ drop (S k) (batches (batcher w))) in Hc.
    apply (elem_of_cut _ k bt c Hnd Hk) in Hc as [Hc Hne].
    rewrite (members_clear w1 bt b c Hb).
    change (members w1 c) with (members w c). intros Hin.
    apply Hne. apply (sound_disjoint w c bt x Hs Hc Hl Hin). rewrite Hm. left.
Qed.

(** X13: in a state a client can reach, [Remove] of an object that is the
    only member of its batch followed by [Add] of the same object does not
    bring it back.  Both calls return; the batch has left the batcher, the
    index entry of the object still points to it, and no batch of the
    batcher holds the object. *)
Theorem Remove_then_Add_loses_object (os : gmap positive Object)
    (ts : gmap positive (list TextureRef)) (l : list positive) (cs : list call)
    (x bt : positive) :
  let w := run cs (snd (NewBatcher os ts l)) in
  let r := andThen (Remove [x] w) (Add [x]) in
  bt ∈ batches (batcher w) → members w bt = [x] →
  fst r = Ret tt ∧
  batchByObj (batcher (snd r)) !! x = Some bt ∧
  (bt ∉ batches (batcher (snd r))) ∧
  ∀ c, c ∈ batches (batcher (snd r)) → x ∉ members (snd r) c.
Proof.
  intros w r Hl Hm. apply Remove_Add_last; [apply reachable_sound | exact Hl | exact Hm].
Qed.

Lemma Remove_then_Add_loses_object_witness :
  let w := run [CallAdd [14%positive]]
             (snd (NewBatcher sceneObjects sceneTextures [11%positive; 12%positive])) in
  let r := andThen (Remove [14%positive] w) (Add [14%positive]) in
  2%positive ∈ batches (batcher w) ∧ members w 2%positive = [14%positive] ∧
  fst r = Ret tt ∧ ∀ c, c ∈ batches (batcher (snd r)) → 14%positive ∉ members (snd r) c.
Proof.
  assert (Hl : 2%positive ∈
               batches (batcher (run [CallAdd [14%positive]]
                                   (snd (NewBatcher sceneObjects sceneTextures
                                           [11%positive; 12%positive]))))).
  { vm_compute. right. left. }
  assert (Hm : members (run [CallAdd [14%positive]]
                          (snd (NewBatcher sceneObjects sceneTextures
                                  [11%positive; 12%positive]))) 2%positive
               = [14%positive]).
  { vm_compute. reflexivity. }
  split; [exact Hl |]. split; [exact Hm |].
  destruct (Remove_then_Add_loses_object sceneObjects sceneTextures
              [11%positive; 12%positive] [CallAdd [14%positive]] 14%positive 2%positive
              Hl Hm) as (Hr & _ & _ & Ha).
  split; [exact Hr | exact Ha].
Defined.

(** ** The calls of [DrawTo] *)

(** X14: [DrawTo] returns exactly when every batch of the batcher is
    allocated and every batch with a mesh type and a nil cache can be
    merged; it has then issued, batch after batch in the order of
    [b.batches], one [Draw] per member for a batch without mesh type and one
    [Draw] of the cached or newly merged object for a batch with one, and
    nothing else. *)
Theorem DrawTo_issues_draws (w : World) :
  (fst (DrawTo w) = Ret tt ↔ Forall (drawable w) (batches (batcher w))) ∧
  (fst (DrawTo w) = Ret tt →
   canvas (snd (DrawTo w)) = canvas w ++ concat (drawsOf w <$> batches (batcher w))).
Proof.
  split; [apply DrawTo_returns_iff |].
  intros H. apply DrawTo_draws, DrawTo_returns_iff, H.
Qed.

Lemma drawsOf_ready (w w' : World) (bt : positive) :
  ready w bt → batchHeap w' = batchHeap w → drawsOf w' bt = drawsOf w bt.
Proof.
  intros (b & Hb & Hc) Hh. unfold drawsOf. rewrite Hh, Hb.
  destruct (meshType b) as [mt |]; [| reflexivity].
  destruct Hc as [o Ho]; [eauto |]. rewrite Ho. reflexivity.
Qed.

Lemma drawBatch_ready (w : World) (bt : positive) :
  ready w bt →
  drawBatch bt w = (Ret tt, setCanvas (canvas w ++ drawsOf w bt) w).
Proof.
  intros (b & Hb & Hc). unfold drawBatch, drawsOf, bind, derefBatch. rewrite Hb.
  destruct (meshType b) as [mt |].
  - destruct Hc as [o Ho]; [eauto |]. rewrite Ho. reflexivity.
  - apply forEach_draw.
Qed.

Lemma forEach_ready (l : list positive) (w : World) :
  Forall (ready w) l →
  forEach l drawBatch w
  = (Ret tt, setCanvas (canvas w ++ concat (drawsOf w <$> l)) w).
Proof.
  revert w. induction l as [| bt l IH]; intros w Hall; simpl.
  - unfold ret, setCanvas. rewrite app_nil_r. destruct w; reflexivity.
  - apply Forall_cons in Hall as [Hbt Hl].
    unfold bind. rewrite (drawBatch_ready w bt Hbt).
    rewrite IH by exact Hl.
    assert (E : drawsOf (setCanvas (canvas w ++ drawsOf w bt) w) <$> l
                = drawsOf w <$> l).
    { apply Forall_fmap_ext_1. eapply Forall_impl; [exact Hl |].
      intros x Hx. apply drawsOf_ready; [exact Hx | reflexivity]. }
    rewrite E. unfold setCanvas. simpl. rewrite <- app_assoc. reflexivity.
Qed.

Lemma ready_frame (w w' : World) (bt : positive) :
  drawFrame w w' → ready w bt → ready w' bt.
Proof.
  intros [_ _ _ Hh] (b & Hb & Hc). specialize (Hh bt). rewrite Hb in Hh.
  inversion Hh as [? b' [(_ & _ & _ & Hmt & _) Hf] |]; subst.
  exists b'. split; [congruence |]. rewrite Hmt. intros Hty.
  destruct Hf as [-> | (_ & o & _ & ->)]; eauto.
Qed.

Lemma drawBatch_makes_ready (w : World) (bt : positive) :
  fst (drawBatch bt w) = Ret tt → ready (snd (drawBatch bt w)) bt.
Proof.
  unfold drawBatch, bind, derefBatch, ready.
  destruct (batchHeap w !! bt) as [b |] eqn:Hb; [| discriminate].
  destruct (meshType b) as [mt |] eqn:Hmt.
  - destruct (batchObject b) as [o |] eqn:Hc; simpl.
    + intros _. exists b. rewrite Hc. eauto.
    + unfold lift. destruct (mergeObjects false w (objects b)) as [o | msg];
        simpl; [| discriminate].
      intros _. eexists. rewrite lookup_insert_eq. split; [reflexivity |].
      simpl. eauto.
  - intros _. rewrite forEach_draw. simpl. exists b. rewrite Hmt.
    split; [exact Hb |]. intros [? ?]. discriminate.
Qed.

Lemma forEach_makes_ready (l : list positive) (w : World) :
  fst (forEach l drawBatch w) = Ret tt →
  Forall (ready (snd (forEach l drawBatch w))) l.
Proof.
  revert w. induction l as [| bt l IH]; intros w H; simpl in *; [constructor |].
  unfold bind in *. pose proof (drawBatch_makes_ready w bt) as Hr.
  destruct (drawBatch bt w) as [[[] | msg] w1]; simpl in *; [| discriminate].
  constructor; [| apply IH, H].
  apply (ready_frame w1); [| apply Hr; reflexivity].
  apply (keeps_forEach drawFrame l drawBatch keeps_drawBatch w1).
Qed.

(** X15: once the caches are filled, [DrawTo] merges nothing.  If in [w]
    every batch of the batcher is allocated and every batch with a mesh
    type has its cache, then in any state with the same batcher and the
    same batches, whatever the client has written to its objects and
    textures since, [DrawTo] returns, changes nothing but the canvas, and
    issues the calls it issues in [w]: for a batch with a mesh type one
    [Draw] of the cached object, as it was merged, and for a batch without
    mesh type one [Draw] per member, of the member itself. *)
Theorem DrawTo_cached (w w' : World) :
  Forall (ready w) (batches (batcher w)) →
  batchHeap w' = batchHeap w → batcher w' = batcher w →
  DrawTo w'
  = (Ret tt, setCanvas (canvas w' ++ concat (drawsOf w <$> batches (batcher w))) w') ∧
  ∀ bt, bt ∈ batches (batcher w) →
    ∃ b, batchHeap w !! bt = Some b ∧
         ((meshType b = None ∧ drawsOf w bt = DrawObject <$> objects b) ∨
          (∃ o, is_Some (meshType b) ∧ batchObject b = Some o ∧
                drawsOf w bt = [DrawMerged o])).
Proof.
  intros Hall Hh Hb. split.
  2: { intros bt Hbt. rewrite Forall_forall in Hall.
       destruct (Hall bt Hbt) as (b & Hbb & Hc). exists b. split; [exact Hbb |].
       unfold drawsOf. rewrite Hbb. destruct (meshType b) as [mt |]; [| auto].
       destruct Hc as [o Ho]; [eauto |]. right. exists o. rewrite Ho. eauto. }
  unfold DrawTo, bind, get. rewrite Hb.
  assert (E : drawsOf w' <$> batches (batcher w) = drawsOf w <$> batches (batcher w)).
  { apply Forall_fmap_ext_1. eapply Forall_impl; [exact Hall |].
    intros bt Hbt. apply drawsOf_ready; assumption. }
  rewrite forEach_ready, E; [reflexivity |].
  eapply Forall_impl; [exact Hall |]. intros bt (b & Hbt & Hc).
  exists b. rewrite Hh. auto.
Qed.

Lemma DrawTo_makes_ready (w : World) :
  fst (DrawTo w) = Ret tt → Forall (ready (snd (DrawTo w))) (batches (batcher w)).
Proof. unfold DrawTo, bind, get. apply forEach_makes_ready. Qed.

(** X16: when [DrawTo] returns, a second [DrawTo] returns as well, issues
    the same calls again and changes nothing but the canvas: every cache is
    filled and none is merged again. *)
Theorem DrawTo_twice (w : World) :
  fst (DrawTo w) = Ret tt →
  let w1 := snd (DrawTo w) in
  canvas w1 = canvas w ++ concat (drawsOf w <$> batches (batcher w)) ∧
  DrawTo w1
  = (Ret tt, setCanvas (canvas w1 ++ concat (drawsOf w <$> batches (batcher w))) w1).
Proof.
  intros Hr w1. pose proof (keeps_DrawTo w) as Hf. fold w1 in Hf.
  split; [apply DrawTo_draws, DrawTo_returns_iff, Hr |].
  unfold DrawTo, bind, get. rewrite (frame_batcher _ _ Hf).
  rewrite forEach_ready by apply (DrawTo_makes_ready w Hr).
  assert (E : drawsOf w1 <$> batches (batcher w) = drawsOf w <$> batches (batcher w)).
  { apply list_fmap_ext. intros _ bt _. apply drawsOf_frame, Hf. }
  rewrite E. reflexivity.
Qed.


Lemma DrawTo_cached_witness :
  let w := snd (DrawTo (snd (NewBatcher sceneObjects sceneTextures
                               [13%positive; 16%positive; 14%positive]))) in
  let w' := snd (perform (ClientWrite 16%positive
                            (mkObject ditheredState None 21%positive [])) w) in
  Forall (ready w) (batches (batcher w)) ∧
  DrawTo w'
  = (Ret tt, setCanvas (canvas w' ++ concat (drawsOf w <$> batches (batcher w))) w').
Proof.
  assert (H : Forall (ready (snd (DrawTo (snd (NewBatcher sceneObjects sceneTextures
                                                [13%positive; 16%positive;
                                                 14%positive])))))
                (batches (batcher (snd (DrawTo (snd (NewBatcher sceneObjects
                                                       sceneTextures
                                                       [13%positive; 16%positive;
                                                        14%positive]))))))).
  { apply (DrawTo_makes_ready (snd (NewBatcher sceneObjects sceneTextures
                                      [13%positive; 16%positive; 14%positive]))).
    vm_compute. reflexivity. }
  split; [exact H |].
  apply (DrawTo_cached _ _ H); reflexivity.
Defined.

Lemma DrawTo_twice_witness :
  let w := snd (NewBatcher sceneObjects sceneTextures
                  [13%positive; 16%positive; 14%positive]) in
  fst (DrawTo w) = Ret tt ∧
  DrawTo (snd (DrawTo w))
  = (Ret tt, setCanvas (canvas (snd (DrawTo w))
                        ++ concat (drawsOf w <$> batches (batcher w)))
               (snd (DrawTo w))).
Proof.
  split; [vm_compute; reflexivity |].
  apply (DrawTo_twice (snd (NewBatcher sceneObjects sceneTextures
                              [13%positive; 16%positive; 14%positive]))).
  vm_compute; reflexivity.
Defined.

(** ** The merge *)

Lemma lockMeshes_returns (ms : list (option Mesh)) :
  lockMeshes ms = Ret tt ↔ Forall is_Some ms.
Proof.
  induction ms as [| [m |] ms IH]; simpl.
  - split; [constructor | reflexivity].
  - rewrite IH. split; [constructor; eauto |].
    intros H. apply Forall_cons in H as [_ H]. exact H.
  - split; [discriminate |]. intros H. apply Forall_cons in H as [[? ?] _].
    discriminate.
Qed.

Lemma derefAll_first (w : World) (x : positive) (l : list positive)
    (os : list Object) :
  derefAll w (x :: l) = Ret os →
  ∃ o os', os = o :: os' ∧ derefObject w x = Ret o ∧ derefAll w l = Ret os'.
Proof.
  simpl. destruct (derefObject w x) as [o | msg]; [| discriminate].
  destruct (lockMeshes (Meshes o)); [| discriminate].
  destruct (derefAll w l) as [os' | msg]; [| discriminate].
  intros [= <-]. eauto.
Qed.

(** The locking loop returns exactly when every object is valid and has no
    nil mesh. *)
Lemma derefAll_valid (w : World) (l : list positive) :
  (∃ os, derefAll w l = Ret os) ↔
  ∀ x, x ∈ l → ∃ o, objs w !! x = Some o ∧ Forall is_Some (Meshes o).
Proof.
  induction l as [| x l IH]; simpl.
  - split; [intros _ x Hx; inversion Hx | eauto].
  - unfold derefObject. destruct (objs w !! x) as [o |] eqn:Ho.
    + destruct (lockMeshes (Meshes o)) as [[] | msg] eqn:Hl.
      * apply lockMeshes_returns in Hl.
        destruct (derefAll w l) as [os | msg].
        -- split; [| eauto]. intros _ y Hy.
           apply elem_of_cons in Hy as [-> | Hy]; [eauto |].
           apply IH; eauto.
        -- split; [intros [? ?]; discriminate |]. intros H.
           destruct (proj2 IH) as [? ?]; [| discriminate].
           intros y Hy. apply H. right. exact Hy.
      * split; [intros [? ?]; discriminate |]. intros H.
        destruct (H x) as (o' & Ho' & Hall); [left |].
        rewrite Ho in Ho'. injection Ho' as <-.
        apply lockMeshes_returns in Hall. congruence.
    + split; [intros [? ?]; discriminate |]. intros H.
      destruct (H x) as (o' & Ho' & _); [left | congruence].
Qed.

(** After the locking loop no object has a nil mesh. *)
Lemma derefAll_locked (w : World) (l : list positive) (os : list Object) :
  derefAll w l = Ret os → Forall (λ o, Forall is_Some (Meshes o)) os.
Proof.
  revert os. induction l as [| x l IH]; simpl; intros os.
  - intros [= <-]. constructor.
  - destruct (derefObject w x) as [o | ?]; [| discriminate].
    destruct (lockMeshes (Meshes o)) as [[] | ?] eqn:Hl; [| discriminate].
    destruct (derefAll w l) as [os' | ?]; [| discriminate].
    intros [= <-]. constructor; [apply lockMeshes_returns, Hl | apply IH; reflexivity].
Qed.

Lemma mergeObjects_returns (checkMt : bool) (w : World) (l : list positive) :
  (∃ o, mergeObjects checkMt w l = Ret o) ↔
  l ≠ [] ∧ ∃ os bm, derefAll w l = Ret os ∧ mergeEach checkMt 0 os None = Ret bm.
Proof.
  unfold mergeObjects. destruct l as [| x l].
  - split; [intros [o H]; discriminate | intros [H _]; congruence].
  - destruct (derefAll w (x :: l)) as [os | msg] eqn:Hd.
    + destruct (derefAll_first w x l os Hd) as (o & os' & -> & Ho & _). rewrite Ho.
      destruct (mergeEach checkMt 0 (o :: os') None) as [bm | msg] eqn:Hm.
      * split; [| intros _; eexists; reflexivity].
        intros _. split; [discriminate |]. exists (o :: os'), bm. auto.
      * split; [intros [? H]; discriminate |].
        intros (_ & os & bm & [= <-] & H). congruence.
    + split; [intros [? H]; discriminate |].
      intros (_ & os & bm & H & _). discriminate.
Qed.

(** X17: in every state a client can reach, every batch of the batcher is
    allocated and not empty and every member is a valid object.  [DrawTo]
    returns there exactly when, for every batch that has a mesh type and a
    nil cache, the locking loop of [mergeObjects] returns, which it does
    exactly when no member has a nil mesh, and the loops of [mergeObjects]
    over the meshes return.  No other step of [DrawTo] can panic there. *)
Theorem DrawTo_returns_in_client_states (os : gmap positive Object)
    (ts : gmap positive (list TextureRef)) (l : list positive) (cs : list call) :
  let w := run cs (snd (NewBatcher os ts l)) in
  (∀ bt, bt ∈ batches (batcher w) →
     ∃ b, batchHeap w !! bt = Some b ∧ objects b ≠ [] ∧
          (∀ x, x ∈ objects b → is_Some (objs w !! x)) ∧
          ((∃ members, derefAll w (objects b) = Ret members) ↔
           ∀ x o, x ∈ objects b → objs w !! x = Some o → Forall is_Some (Meshes o))) ∧
  (fst (DrawTo w) = Ret tt ↔
   ∀ bt b, bt ∈ batches (batcher w) → batchHeap w !! bt = Some b →
     is_Some (meshType b) → batchObject b = None →
     ∃ members bm, derefAll w (objects b) = Ret members ∧
                   mergeEach false 0 members None = Ret bm).
Proof.
  intros w. pose proof (reachable_sound os ts l cs) as Hs. fold w in Hs.
  assert (Hv : ∀ bt, bt ∈ batches (batcher w) →
                 ∃ b, batchHeap w !! bt = Some b ∧ objects b ≠ [] ∧
                      (∀ x, x ∈ objects b → is_Some (objs w !! x)) ∧
                      ((∃ members, derefAll w (objects b) = Ret members) ↔
                       ∀ x o, x ∈ objects b → objs w !! x = Some o →
                              Forall is_Some (Meshes o))).
  { intros bt Hbt. destruct (sound_listed w Hs bt Hbt) as [Hne _].
    destruct (members_allocated w bt Hne) as (b & Hb & Hmb).
    assert (Hval : ∀ x, x ∈ objects b → is_Some (objs w !! x)).
    { intros x Hx. rewrite <- Hmb in Hx. apply (sound_member w Hs bt x Hbt Hx). }
    exists b. split; [exact Hb |]. split; [congruence |]. split; [exact Hval |].
    rewrite derefAll_valid. split.
    - intros H x o Hx Ho. destruct (H x Hx) as (o' & Ho' & Hall). congruence.
    - intros H x Hx. destruct (Hval x Hx) as [o Ho]. eauto. }
  split; [exact Hv |].
  rewrite DrawTo_returns_iff, Forall_forall. split.
  - intros Hd bt b Hbt Hb Hty Hc.
    destruct (Hd bt Hbt) as (b' & Hb' & Hm).
    assert (b' = b) as -> by congruence.
    apply mergeObjects_returns in Hm as (_ & ms' & bm & Hms' & Hbm); [| assumption ..].
    eauto.
  - intros H bt Hbt. destruct (Hv bt Hbt) as (b & Hb & Hne & _).
    exists b. split; [exact Hb |]. intros Hty Hc.
    apply mergeObjects_returns. split; [exact Hne |].
    apply (H bt b Hbt Hb Hty Hc).
Qed.

Lemma mergeMeshes_unchecked (objN meshN : nat) (ms : list (option Mesh))
    (batchMesh r : option Mesh) :
  mergeMeshes true objN meshN ms batchMesh = Ret r →
  mergeMeshes false objN meshN ms batchMesh = Ret r.
Proof.
  revert meshN batchMesh. induction ms as [| [m |] ms IH]; intros meshN bm; simpl;
    [auto | | discriminate].
  destruct (Nat.eqb objN 0 && Nat.eqb meshN 0); [apply IH |].
  destruct bm as [bm |]; [| discriminate].
  destruct (canAppend bm m); [discriminate |].
  destruct (append bm m); [apply IH | discriminate].
Qed.

Lemma mergeEach_unchecked (objN : nat) (os : list Object) (batchMesh r : option Mesh) :
  mergeEach true objN os batchMesh = Ret r →
  mergeEach false objN os batchMesh = Ret r.
Proof.
  revert objN batchMesh. induction os as [| o os IH]; intros objN bm; simpl; [auto |].
  destruct (mergeMeshes true objN 0 (Meshes o) bm) as [bm' | msg] eqn:E;
    [| discriminate].
  rewrite (mergeMeshes_unchecked _ _ _ _ _ E). apply IH.
Qed.

(** X18: what [Batch] returns, the unchecked merge of [DrawTo] returns as
    well: leaving out the calls of [canAppend] changes the merged object of
    no list of objects that [Batch] accepts. *)
Theorem mergeObjects_unchecked (w : World) (l : list positive) (m : MergedObject) :
  Batch w l = Ret m → mergeObjects false w l = Ret m.
Proof.
  unfold Batch, mergeObjects. destruct l as [| x l]; [discriminate |].
  destruct (derefAll w (x :: l)) as [os | msg]; [| discriminate].
  destruct (derefObject w x) as [o |]; [| discriminate].
  destruct (mergeEach true 0 os None) as [bm | msg] eqn:E; [| discriminate].
  rewrite (mergeEach_unchecked _ _ _ _ E). auto.
Qed.

Lemma mergeObjects_unchecked_witness :
  ∃ m, Batch (emptyWorld sceneObjects sceneTextures) [13%positive; 16%positive] = Ret m ∧
       mergeObjects false (emptyWorld sceneObjects sceneTextures)
         [13%positive; 16%positive] = Ret m.
Proof.
  eexists. split; [vm_compute; reflexivity |].
  apply (mergeObjects_unchecked (emptyWorld sceneObjects sceneTextures)
           [13%positive; 16%positive]).
  vm_compute; reflexivity.
Defined.

Lemma mergeMeshes_later (checkMt : bool) (objN meshN : nat)
    (ms : list (option Mesh)) :
  mergeMeshes checkMt (S objN) meshN ms None
  = match ms with [] => Ret None | _ :: _ => Panic nilDeref end.
Proof. destruct ms as [| [m |] ms]; reflexivity. Qed.

Lemma mergeEach_later (checkMt : bool) (objN : nat) (os : list Object) :
  mergeEach checkMt (S objN) os None
  = if forallb noMesh os then Ret None else Panic nilDeref.
Proof.
  revert objN. induction os as [| o os IH]; intros objN; simpl; [reflexivity |].
  rewrite mergeMeshes_later. unfold noMesh at 1.
  destruct (Meshes o); [apply IH | reflexivity].
Qed.

(** X19: the merge of a list whose first object has no mesh.  When no
    object of the list has a mesh, [mergeObjects] returns an object without
    mesh that has the state, the shader and the textures of the first; as
    soon as a later object has one, it panics with a nil dereference,
    checked or not. *)
Theorem mergeObjects_first_without_mesh (checkMt : bool) (w : World)
    (x : positive) (l : list positive) (o : Object) (os : list Object) :
  derefAll w (x :: l) = Ret (o :: os) → Meshes o = [] →
  mergeObjects checkMt w (x :: l)
  = if forallb noMesh os
    then Ret {| mergedState := ObjectState o; mergedShader := Shader o;
                mergedTextures := readSlice w (Textures o); mergedMeshes := [] |}
    else Panic nilDeref.
Proof.
  intros Hd Hm. unfold mergeObjects. rewrite Hd.
  destruct (derefAll_first w x l _ Hd) as (o' & os' & [= <- <-] & -> & _).
  simpl. rewrite Hm. simpl. rewrite mergeEach_later.
  destruct (forallb noMesh os); reflexivity.
Qed.

Lemma mergeObjects_first_without_mesh_witness :
  derefAll (emptyWorld sceneObjects sceneTextures) [11%positive; 12%positive; 16%positive]
  = Ret [mkObject defaultState None 21%positive [];
         mkObject defaultState None 21%positive [];
         mkObject defaultState None 21%positive [Some oneVertex]] ∧
  mergeObjects true (emptyWorld sceneObjects sceneTextures)
    [11%positive; 12%positive; 16%positive] = Panic nilDeref.
Proof.
  split; [vm_compute; reflexivity |].
  apply (mergeObjects_first_without_mesh true (emptyWorld sceneObjects sceneTextures)
           11%positive [12%positive; 16%positive]
           (mkObject defaultState None 21%positive [])
           [mkObject defaultState None 21%positive [];
            mkObject defaultState None 21%positive [Some oneVertex]]).
  - vm_compute; reflexivity.
  - reflexivity.
Defined.

Lemma mergeEach_meshes (checkMt : bool) (objN : nat) (os os' : list Object)
    (batchMesh : option Mesh) :
  Meshes <$> os' = Meshes <$> os →
  mergeEach checkMt objN os' batchMesh = mergeEach checkMt objN os batchMesh.
Proof.
  revert objN os' batchMesh. induction os as [| o os IH]; intros objN os' bm H.
  - destruct os'; [reflexivity | discriminate].
  - destruct os' as [| o' os']; [discriminate |]. simpl in *.
    injection H as -> H.
    destruct (mergeMeshes checkMt objN 0 (Meshes o) bm); [apply IH, H | reflexivity].
Qed.

Lemma derefAll_meshes (w w' : World) (l : list positive) :
  (∀ x, x ∈ l → Meshes <$> objs w' !! x = Meshes <$> objs w !! x) →
  match derefAll w' l, derefAll w l with
  | Ret os', Ret os => Meshes <$> os' = Meshes <$> os
  | Panic msg', Panic msg => msg' = msg
  | _, _ => False
  end.
Proof.
  induction l as [| x l IH]; intros H; simpl; [reflexivity |].
  unfold derefObject. pose proof (H x ltac:(left)) as Hx.
  destruct (objs w' !! x) as [o' |], (objs w !! x) as [o |]; try discriminate;
    [| reflexivity].
  simpl in Hx. injection Hx as Hx. rewrite Hx.
  specialize (IH (λ y Hy, H y ltac:(right; exact Hy))).
  destruct (lockMeshes (Meshes o)); [| reflexivity].
  destruct (derefAll w' l), (derefAll w l); try contradiction; [| exact IH].
  rewrite !fmap_cons, Hx, IH. reflexivity.
Qed.

(** X20: [mergeObjects] reads the state, the shader and the textures of the
    first object only.  Two memories that agree on the first object and its
    textures and on the meshes of the other objects give the same result,
    checked or not, whatever the state, the shader and the textures of the
    other objects are: a difference in these never makes [Batch] panic. *)
Theorem mergeObjects_reads_first_type_only (checkMt : bool) (w w' : World)
    (x : positive) (l : list positive) :
  objs w' !! x = objs w !! x →
  (∀ a, Textures <$> objs w !! x = Some a → readSlice w' a = readSlice w a) →
  (∀ y, y ∈ l → Meshes <$> objs w' !! y = Meshes <$> objs w !! y) →
  mergeObjects checkMt w' (x :: l) = mergeObjects checkMt w (x :: l).
Proof.
  intros Hx Ht Hl. unfold mergeObjects.
  assert (Hd : match derefAll w' (x :: l), derefAll w (x :: l) with
               | Ret os', Ret os => Meshes <$> os' = Meshes <$> os
               | Panic msg', Panic msg => msg' = msg
               | _, _ => False
               end).
  { apply derefAll_meshes. intros y Hy.
    apply elem_of_cons in Hy as [-> | Hy]; [rewrite Hx; reflexivity | auto]. }
  destruct (derefAll w' (x :: l)) as [os' | msg'], (derefAll w (x :: l)) as [os | msg];
    try contradiction.
  - unfold derefObject. rewrite Hx.
    destruct (objs w !! x) as [o |] eqn:Ho; [| reflexivity].
    rewrite (mergeEach_meshes checkMt 0 os os' None Hd).
    rewrite (Ht (Textures o)) by reflexivity. reflexivity.
  - rewrite Hd. reflexivity.
Qed.

Lemma mergeObjects_reads_first_type_only_witness :
  let w := emptyWorld sceneObjects sceneTextures in
  let w' := emptyWorld
              (<[16%positive := mkObject ditheredState (Some 7%positive) 22%positive
                                  [Some oneVertex]]> sceneObjects) sceneTextures in
  objs w' !! 13%positive = objs w !! 13%positive ∧
  mergeObjects true w' [13%positive; 16%positive]
  = mergeObjects true w [13%positive; 16%positive].
Proof.
  split; [vm_compute; reflexivity |].
  apply (mergeObjects_reads_first_type_only true
           (emptyWorld sceneObjects sceneTextures)
           (emptyWorld
              (<[16%positive := mkObject ditheredState (Some 7%positive) 22%positive
                                  [Some oneVertex]]> sceneObjects) sceneTextures)
           13%positive [16%positive]).
  - vm_compute; reflexivity.
  - intros a _. reflexivity.
  - intros y Hy. apply list_elem_of_singleton in Hy. subst y. vm_compute; reflexivity.
Defined.
